(** * email-service: the send-email pipeline

    A shallow embedding of the request pipeline of the service:

    - [src/constant/patterns.constants.js]   the [EMAIL] pattern
    - [src/service/validation.service.js]    [createStringField], [emailField]
    - [.../send-email/sendEmail.schema.js]   the subject+email object schema
    - [.../send-email/sendEmail.validator.js], [sendEmail.routes.js]
    - [.../send-email/sendEmail.service.js]  the send-email use case
    - [.../send-email/sendEmail.controller.js]

    JavaScript strings are sequences of UTF-16 code units, regular
    expressions are embedded as syntax trees with a backtracking matcher,
    and the Joi combinators the schemas are built from are given their
    library semantics (coerce, base check, rule loop, object keys). *)

From Stdlib Require Import List Bool Arith NArith ZArith Lia String Ascii.
Import ListNotations.

Set Implicit Arguments.
Set Warnings "-register-all".

(* ===================================================================== *)
(** ** JavaScript strings *)
(* ===================================================================== *)

Module Js.

(** A string is its list of UTF-16 code units. *)
Definition jsstring := list N.

Definition ch (a : ascii) : N := N_of_ascii a.

(** The code units of an ASCII literal of the source. *)
Definition u16 (s : string) : jsstring := map N_of_ascii (list_ascii_of_string s).

Definition rng (lo hi c : N) : bool := (lo <=? c)%N && (c <=? hi)%N.
Definition one (x c : N) : bool := (c =? x)%N.
Definition any_of (ps : list (N -> bool)) (c : N) : bool := existsb (fun p => p c) ps.
Definition none_of (ps : list (N -> bool)) (c : N) : bool := negb (any_of ps c).

(** LineTerminator: LF, CR, LS, PS. *)
Definition is_line_terminator : N -> bool :=
  any_of [one 10; one 13; one 8232; one 8233]%N.

(** WhiteSpace and LineTerminator, the set of [\s] and of [String.prototype.trim]:
    TAB LF VT FF CR SP NBSP, U+1680, U+2000..U+200A, LS, PS, U+202F, U+205F,
    U+3000, U+FEFF. *)
Definition is_space : N -> bool :=
  any_of [rng 9 13; one 32; one 160; one 5760; rng 8192 8202;
          one 8232; one 8233; one 8239; one 8287; one 12288; one 65279]%N.

(** [\w] is [A-Za-z0-9_]. *)
Definition is_word : N -> bool :=
  any_of [rng 65 90; rng 97 122; rng 48 57; one 95]%N.

Fixpoint dropWhile (p : N -> bool) (s : jsstring) : jsstring :=
  match s with
  | [] => []
  | c :: rest => if p c then dropWhile p rest else s
  end.

Definition trimStart (s : jsstring) : jsstring := dropWhile is_space s.
Definition trimEnd (s : jsstring) : jsstring := rev (dropWhile is_space (rev s)).

(** [String.prototype.trim]. *)
Definition trim (s : jsstring) : jsstring := trimEnd (trimStart s).

Definition jsstring_eqb (a b : jsstring) : bool :=
  if list_eq_dec N.eq_dec a b then true else false.

(** [a] occurs in [s] as a contiguous substring. *)
Definition contains (a s : jsstring) : Prop :=
  exists pre post, s = pre ++ a ++ post.

(** *** Values *)

(** The values that flow through the pipeline: JSON-like data, and [Error]
    instances, which carry a [name] and a [message]. *)
Inductive JsValue : Type :=
| JUndefined
| JNull
| JBool (b : bool)
| JNumber (z : Z)
| JString (s : jsstring)
| JObject (fields : list (string * JsValue))
| JError (name : string) (message : jsstring).

Definition str (s : string) : JsValue := JString (u16 s).

(** ToBoolean. *)
Definition truthy (v : JsValue) : bool :=
  match v with
  | JUndefined | JNull => false
  | JBool b => b
  | JNumber z => negb (z =? 0)%Z
  | JString s => match s with [] => false | _ :: _ => true end
  | JObject _ | JError _ _ => true
  end.

(** [a || b]. *)
Definition js_or (a b : JsValue) : JsValue := if truthy a then a else b.

Fixpoint lookup (k : string) (fields : list (string * JsValue)) : option JsValue :=
  match fields with
  | [] => None
  | (k', v) :: rest => if String.eqb k k' then Some v else lookup k rest
  end.

Fixpoint set_field (k : string) (v : JsValue) (fields : list (string * JsValue))
  : list (string * JsValue) :=
  match fields with
  | [] => [(k, v)]
  | (k', v') :: rest =>
      if String.eqb k k' then (k, v) :: rest else (k', v') :: set_field k v rest
  end.

(** *** Completions: a computation returns or throws *)

Inductive Completion (A : Type) : Type :=
| Normal (a : A)
| Throw (e : JsValue).
Arguments Normal {A} a.
Arguments Throw {A} e.

Definition bind {A B} (c : Completion A) (k : A -> Completion B) : Completion B :=
  match c with
  | Normal a => k a
  | Throw e => Throw e
  end.

(** [try { body } catch (error) { handler }]. *)
Definition try_catch {A} (body : Completion A) (handler : JsValue -> Completion A)
  : Completion A :=
  match body with
  | Normal a => Normal a
  | Throw e => handler e
  end.

Definition type_error (msg : string) : JsValue := JError "TypeError" (u16 msg).

Definition describe (v : JsValue) : string :=
  match v with JNull => "null" | _ => "undefined" end.

(** [v.k]: reading a property of [undefined] or [null] throws a TypeError;
    any other value without the property yields [undefined].  The pipeline
    reads none of the properties that booleans, numbers and strings have. *)
Definition get (v : JsValue) (k : string) : Completion JsValue :=
  match v with
  | JUndefined | JNull =>
      Throw (type_error ("Cannot read properties of " ++ describe v
                         ++ " (reading '" ++ k ++ "')"))
  | JObject fields =>
      Normal (match lookup k fields with Some x => x | None => JUndefined end)
  | JError name message =>
      Normal (if String.eqb k "message" then JString message
              else if String.eqb k "name" then JString (u16 name)
              else JUndefined)
  | JBool _ | JNumber _ | JString _ => Normal JUndefined
  end.

(** [v?.k]. *)
Definition get_opt (v : JsValue) (k : string) : Completion JsValue :=
  match v with
  | JUndefined | JNull => Normal JUndefined
  | _ => get v k
  end.

End Js.

Declare Scope js_scope.
Delimit Scope js_scope with js.
Notation "x <- c ;; k" := (Js.bind c (fun x => k))
  (at level 61, c at next level, right associativity) : js_scope.

(* ===================================================================== *)
(** ** Regular expressions (the fragment the source patterns use) *)
(* ===================================================================== *)

Module Regex.
Import Js.

Inductive re : Type :=
| Eps
| Chr (p : N -> bool)          (* one code unit of a class; literals and [.] *)
| Seq (a b : re)
| Alt (a b : re)
| Star (a : re)
| NegLook (a : re)             (* (?!a) *)
| Bol                          (* ^ without the m flag *)
| Eol                          (* $ without the m flag *)
| WordB.                       (* \b *)

(** [.] without the s flag. *)
Definition Dot : re := Chr (fun c => negb (is_line_terminator c)).
Definition Plus (a : re) : re := Seq a (Star a).
Definition Opt (a : re) : re := Alt a Eps.

Fixpoint Lit (s : jsstring) : re :=
  match s with
  | [] => Eps
  | c :: rest => Seq (Chr (one c)) (Lit rest)
  end.

Fixpoint Times (n : nat) (a : re) : re :=
  match n with
  | O => Eps
  | S k => Seq a (Times k a)
  end.

Fixpoint UpTo (n : nat) (a : re) : re :=
  match n with
  | O => Eps
  | S k => Opt (Seq a (UpTo k a))
  end.

(** [a{n,m}] and [a{n,}]. *)
Definition Between (n m : nat) (a : re) : re := Seq (Times n a) (UpTo (m - n) a).
Definition AtLeast (n : nat) (a : re) : re := Seq (Times n a) (Star a).

(** A position in the subject: the code units before it, nearest first, and
    the code units after it. *)
Record pos : Type := Pos { before : jsstring; after : jsstring }.

Definition advance (c : N) (z : pos) (rest : jsstring) : pos :=
  Pos (c :: before z) rest.

Definition word_before (z : pos) : bool :=
  match before z with c :: _ => is_word c | [] => false end.
Definition word_after (z : pos) : bool :=
  match after z with c :: _ => is_word c | [] => false end.

(** Iteration of a starred body.  An iteration that consumes nothing is
    dropped, as the language does, so the remaining length bounds the
    number of iterations. *)
Fixpoint star_iter (f : pos -> list pos) (fuel : nat) (z : pos) : list pos :=
  z :: match fuel with
       | O => []
       | S n =>
           flat_map
             (fun z' =>
                if List.length (after z') <? List.length (after z)
                then star_iter f n z' else [])
             (f z)
       end.

(** All the positions at which a match of [r] started at [z] can end. *)
Fixpoint run (r : re) (z : pos) : list pos :=
  match r with
  | Eps => [z]
  | Chr p =>
      match after z with
      | c :: rest => if p c then [advance c z rest] else []
      | [] => []
      end
  | Seq a b => flat_map (run b) (run a z)
  | Alt a b => run a z ++ run b z
  | Star a => star_iter (run a) (List.length (after z)) z
  | NegLook a => match run a z with [] => [z] | _ :: _ => [] end
  | Bol => match before z with [] => [z] | _ :: _ => [] end
  | Eol => match after z with [] => [z] | _ :: _ => [] end
  | WordB => if xorb (word_before z) (word_after z) then [z] else []
  end.

Definition matches_at (r : re) (z : pos) : bool :=
  match run r z with [] => false | _ :: _ => true end.

Fixpoint positions_from (bef aft : jsstring) : list pos :=
  Pos bef aft ::
  match aft with
  | [] => []
  | c :: rest => positions_from (c :: bef) rest
  end.

(** [RegExp.prototype.test] for a pattern without the g and y flags: a match
    may start at any index. *)
Definition test (r : re) (s : jsstring) : bool :=
  existsb (matches_at r) (positions_from [] s).

(** *** Declarative reading of the same patterns *)

Inductive star_rel (R : pos -> pos -> Prop) : pos -> pos -> Prop :=
| star_done : forall z, star_rel R z z
| star_more : forall z z1 z2,
    R z z1 -> List.length (after z1) < List.length (after z) ->
    star_rel R z1 z2 -> star_rel R z z2.

Fixpoint matches (r : re) (z z' : pos) : Prop :=
  match r with
  | Eps => z' = z
  | Chr p => exists c rest, after z = c :: rest /\ p c = true /\ z' = advance c z rest
  | Seq a b => exists z1, matches a z z1 /\ matches b z1 z'
  | Alt a b => matches a z z' \/ matches b z z'
  | Star a => star_rel (matches a) z z'
  | NegLook a => z' = z /\ forall z1, ~ matches a z z1
  | Bol => z' = z /\ before z = []
  | Eol => z' = z /\ after z = []
  | WordB => z' = z /\ xorb (word_before z) (word_after z) = true
  end.

(** Every class of [r] outside lookaheads only accepts code units in [P]. *)
Fixpoint consumes_only (P : N -> Prop) (r : re) : Prop :=
  match r with
  | Chr p => forall c, p c = true -> P c
  | Seq a b | Alt a b => consumes_only P a /\ consumes_only P b
  | Star a => consumes_only P a
  | Eps | NegLook _ | Bol | Eol | WordB => True
  end.

End Regex.

(* ===================================================================== *)
(** ** Joi: the schema combinators the source uses *)
(* ===================================================================== *)

Module Joi.
Import Js.

(** The two validation preferences that matter here, with the library's
    defaults.  [allowUnknown] and [stripUnknown] stay at their default [false]:
    nothing in the source sets them. *)
Record Prefs : Type := { convert : bool; abortEarly : bool }.
Definition defaults : Prefs := {| convert := true; abortEarly := true |}.

Inductive Code : Type :=
| any_required
| string_base
| string_empty
| string_trim
| string_min
| string_max
| string_email
| string_pattern_base
| string_pattern_name
| object_base
| object_unknown.

Definition code_name (c : Code) : string :=
  match c with
  | any_required => "any.required"
  | string_base => "string.base"
  | string_empty => "string.empty"
  | string_trim => "string.trim"
  | string_min => "string.min"
  | string_max => "string.max"
  | string_email => "string.email"
  | string_pattern_base => "string.pattern.base"
  | string_pattern_name => "string.pattern.name"
  | object_base => "object.base"
  | object_unknown => "object.unknown"
  end.

(** One entry of [error.details]: the code, the key it is about, and the
    message template when the schema overrides the library's. *)
Record Report : Type :=
  { code : Code; key : option string; template : option string }.

Record Result : Type := { value : JsValue; errors : list Report }.

Definition is_valid (r : Result) : bool :=
  match errors r with [] => true | _ :: _ => false end.

Inductive Rule : Type :=
| RTrim
| RMin (limit : nat)
| RMax (limit : nat)
| REmail (check : jsstring -> bool)
| RPattern (name : option string) (pattern : Regex.re).

Definition Messages := list (string * string).

Record StringSchema : Type :=
  { rules : list Rule; required_flag : bool; overrides : Messages }.

(** [Joi.string()] *)
Definition string_ : StringSchema :=
  {| rules := []; required_flag := false; overrides := [] |}.

Definition add_rule (r : Rule) (s : StringSchema) : StringSchema :=
  {| rules := rules s ++ [r];
     required_flag := required_flag s;
     overrides := overrides s |}.

(** [.trim()], [.min(n)], [.max(n)], [.pattern(re)], [.regex(re, name)] *)
Definition trim_ : StringSchema -> StringSchema := add_rule RTrim.
Definition min_ (n : nat) : StringSchema -> StringSchema := add_rule (RMin n).
Definition max_ (n : nat) : StringSchema -> StringSchema := add_rule (RMax n).
Definition pattern_ (r : Regex.re) : StringSchema -> StringSchema :=
  add_rule (RPattern None r).
Definition regex_ (r : Regex.re) (name : string) : StringSchema -> StringSchema :=
  add_rule (RPattern (Some name) r).

(** [.email(options)]: the address analysis is the library's; the schema
    holds it already applied to the options. *)
Definition email_ (check : jsstring -> bool) : StringSchema -> StringSchema :=
  add_rule (REmail check).

(** [.messages(m)]: later overrides win. *)
Definition messages_ (m : Messages) (s : StringSchema) : StringSchema :=
  {| rules := rules s; required_flag := required_flag s; overrides := m ++ overrides s |}.

(** [.required()] *)
Definition required_ (s : StringSchema) : StringSchema :=
  {| rules := rules s; required_flag := true; overrides := overrides s |}.

Fixpoint assoc (k : string) (m : Messages) : option string :=
  match m with
  | [] => None
  | (k', v) :: rest => if String.eqb k k' then Some v else assoc k rest
  end.

Definition report (s : StringSchema) (k : option string) (c : Code) : Report :=
  {| code := c; key := k; template := assoc (code_name c) (overrides s) |}.

Definition has_trim (s : StringSchema) : bool :=
  existsb (fun r => match r with RTrim => true | _ => false end) (rules s).

Definition min_limit (s : StringSchema) : option nat :=
  match find (fun r => match r with RMin _ => true | _ => false end) (rules s) with
  | Some (RMin n) => Some n
  | _ => None
  end.

(** The coerce step of the string type: with [convert] on, a schema that
    has the trim rule trims the value. *)
Definition coerce (p : Prefs) (s : StringSchema) (v : jsstring) : jsstring :=
  if convert p && has_trim s then trim v else v.

(** What one rule says about a value; [None] when it passes. *)
Definition check_rule (p : Prefs) (r : Rule) (v : jsstring) : option Code :=
  match r with
  | RTrim =>
      if convert p then None
      else if jsstring_eqb v (trim v) then None else Some string_trim
  | RMin n => if n <=? List.length v then None else Some string_min
  | RMax n => if List.length v <=? n then None else Some string_max
  | REmail check => if check v then None else Some string_email
  | RPattern name r =>
      if Regex.test r v then None
      else Some (match name with
                 | Some _ => string_pattern_name
                 | None => string_pattern_base
                 end)
  end.

(** The rule loop: with [abortEarly] the first failure is the result,
    otherwise every failure is collected in rule order. *)
Fixpoint run_rules (p : Prefs) (rs : list Rule) (v : jsstring) (acc : list Code)
  : list Code :=
  match rs with
  | [] => acc
  | r :: rest =>
      match check_rule p r v with
      | None => run_rules p rest v acc
      | Some c => if abortEarly p then [c] else run_rules p rest v (acc ++ [c])
      end
  end.

(** The codes reported for a string value that is already coerced: the base
    check of the type first (an empty string is refused unless the schema has
    [min(0)]; a base error always ends the validation), then the rules. *)
Definition string_codes (p : Prefs) (s : StringSchema) (v : jsstring) : list Code :=
  match v, min_limit s with
  | [], Some O => run_rules p (rules s) v []
  | [], _ => [string_empty]
  | _ :: _, _ => run_rules p (rules s) v []
  end.

(** Validation of any value against a string schema, as the child [k] of an
    object or on its own. *)
Definition validate_string (p : Prefs) (s : StringSchema) (k : option string)
  (x : JsValue) : Result :=
  match x with
  | JUndefined =>
      {| value := x;
         errors := if required_flag s then [report s k any_required] else [] |}
  | JString raw =>
      let v := coerce p s raw in
      {| value := JString v; errors := map (report s k) (string_codes p s v) |}
  | _ => {| value := x; errors := [report s k string_base] |}
  end.

(** [schema.validate(value)] on a bare string. *)
Definition validate (p : Prefs) (s : StringSchema) (raw : jsstring) : Result :=
  validate_string p s None (JString raw).

Definition codes (r : Result) : list Code := map code (errors r).

(** *** Object schemas *)

Record ObjectSchema : Type :=
  { keys : list (string * StringSchema);
    own_convert : option bool }.

(** [Joi.object({...})] *)
Definition object_ (ks : list (string * StringSchema)) : ObjectSchema :=
  {| keys := ks; own_convert := None |}.

(** [.strict()]: conversion is off for this schema and its children. *)
Definition strict_ (o : ObjectSchema) : ObjectSchema :=
  {| keys := keys o; own_convert := Some false |}.

Definition mem_string (k : string) (l : list string) : bool :=
  existsb (String.eqb k) l.

(** [.fork(paths, adjust)] *)
Definition fork (paths : list string) (adjust : StringSchema -> StringSchema)
  (o : ObjectSchema) : ObjectSchema :=
  {| keys := map (fun ks => if mem_string (fst ks) paths
                            then (fst ks, adjust (snd ks)) else ks) (keys o);
     own_convert := own_convert o |}.

Definition effective (p : Prefs) (o : ObjectSchema) : Prefs :=
  match own_convert o with
  | Some c => {| convert := c; abortEarly := abortEarly p |}
  | None => p
  end.

(** The declared children, in declaration order.  A child result that
    carries a value is written back; with [abortEarly] the first failing child
    ends the validation. *)
Fixpoint validate_keys (p : Prefs) (ks : list (string * StringSchema))
  (fields : list (string * JsValue)) (acc : list Report) : Result :=
  match ks with
  | [] => {| value := JObject fields; errors := acc |}
  | (k, s) :: rest =>
      let item := match lookup k fields with Some x => x | None => JUndefined end in
      let r := validate_string p s (Some k) item in
      let fields' := match value r with
                     | JUndefined => fields
                     | x => set_field k x fields
                     end in
      match errors r with
      | [] => validate_keys p rest fields' acc
      | es => if abortEarly p
              then {| value := JObject fields; errors := es |}
              else validate_keys p rest fields' (acc ++ es)
      end
  end.

(** The keys of the value no child declares, in the order of [Object.keys]. *)
Definition unprocessed (ks : list (string * StringSchema))
  (fields : list (string * JsValue)) : list string :=
  filter (fun k => negb (mem_string k (map fst ks))) (map fst fields).

Definition unknown_report (k : string) : Report :=
  {| code := object_unknown; key := Some k; template := None |}.

(** Validation of any value against an object schema.  The values met here
    are request bodies: JSON data, or [undefined] when there is none. *)
Definition validate_object (p0 : Prefs) (o : ObjectSchema) (x : JsValue) : Result :=
  let p := effective p0 o in
  match x with
  | JUndefined => {| value := x; errors := [] |}
  | JObject fields =>
      let r := validate_keys p (keys o) fields [] in
      match errors r, abortEarly p with
      | _ :: _, true => r
      | es, _ =>
          match unprocessed (keys o) fields, abortEarly p with
          | [], _ => r
          | k :: _, true => {| value := value r; errors := [unknown_report k] |}
          | us, false => {| value := value r; errors := es ++ map unknown_report us |}
          end
      end
  | _ => {| value := x;
            errors := [{| code := object_base; key := None; template := None |}] |}
  end.

End Joi.

Notation "x |> f" := (f x) (at level 45, left associativity, only parsing).

(* ===================================================================== *)
(** ** src/constant/patterns.constants.js and the deny pattern *)
(* ===================================================================== *)

Module Patterns.
Import Js Regex.

Local Notation "a >> b" := (Seq a b) (at level 61, right associativity).

Definition quote : N := 34.

(** The negated class of the unquoted local part: none of the units
    < > ( ) [ ] \ . , ; : @, the double quote, or a [\s] unit. *)
Definition atom_char : N -> bool :=
  none_of [one (ch "<"); one (ch ">"); one (ch "("); one (ch ")");
           one (ch "["); one (ch "]"); one (ch "\"); one (ch ".");
           one (ch ","); one (ch ";"); one (ch ":"); is_space;
           one (ch "@"); one quote].

(** [[0-9]], [[a-zA-Z\-0-9]], [[a-zA-Z]] *)
Definition digit : N -> bool := rng (ch "0") (ch "9").
Definition host_char : N -> bool :=
  any_of [rng (ch "a") (ch "z"); rng (ch "A") (ch "Z"); one (ch "-");
          rng (ch "0") (ch "9")].
Definition alpha : N -> bool :=
  any_of [rng (ch "a") (ch "z"); rng (ch "A") (ch "Z")].

Definition c_ (a : ascii) : re := Chr (one (ch a)).

(** [(?!.*\btemp\b)] *)
Definition temp_word : re := Star Dot >> WordB >> Lit (u16 "temp") >> WordB.

(** Dot-separated runs of [atom_char], or a non-empty quoted text:
    the two alternatives of the group before the at sign. *)
Definition local_part : re :=
  Alt (Plus (Chr atom_char) >> Star (c_ "." >> Plus (Chr atom_char)))
      (Chr (one quote) >> Plus Dot >> Chr (one quote)).

(** [\[[0-9]{1,3}\.[0-9]{1,3}\.[0-9]{1,3}\.[0-9]{1,3}]] *)
Definition ip_literal : re :=
  c_ "[" >> Between 1 3 (Chr digit) >> c_ "." >> Between 1 3 (Chr digit) >> c_ "."
         >> Between 1 3 (Chr digit) >> c_ "." >> Between 1 3 (Chr digit) >> c_ "]".

(** [([a-zA-Z\-0-9]+\.)+[a-zA-Z]{2,}] *)
Definition host_name : re :=
  Plus (Plus (Chr host_char) >> c_ ".") >> AtLeast 2 (Chr alpha).

Definition domain_part : re := Alt ip_literal host_name.

(** What follows the lookahead in [patterns.EMAIL]. *)
Definition email_body : re := local_part >> c_ "@" >> domain_part >> Eol.

(** [patterns.EMAIL] *)
Definition EMAIL : re := Bol >> NegLook temp_word >> email_body.

(** [(?!tempmail|mailinator|yopmail)] *)
Definition providers : re :=
  Alt (Lit (u16 "tempmail")) (Alt (Lit (u16 "mailinator")) (Lit (u16 "yopmail"))).

(** [/^((?!tempmail|mailinator|yopmail).)*$/], the pattern that
    validation.service.js passes to [.regex(..., 'no-temp-email')]. *)
Definition NO_TEMP_EMAIL : re := Bol >> Star (NegLook providers >> Dot) >> Eol.

End Patterns.

(* ===================================================================== *)
(** ** src/service/validation.service.js *)
(* ===================================================================== *)

Module ValidationService.
Import Js Joi.
Local Open Scope string_scope.

Definition dq : string := String (ascii_of_nat 34) EmptyString.

(** The options object of [.email(...)]. *)
Record EmailOptions : Type := { minDomainSegments : nat; tlds_allow : bool }.

Section Fields.

(** [shared/customValidationMessage.js] and [constant/constants.js] are not
    among the sources; their contents are parameters. *)
Variable customValidationMessage : Messages.
Variables EMAIL_MIN EMAIL_MAX : nat.

(** The address analysis behind Joi's [.email()], a library function. *)
Variable isEmailValid : EmailOptions -> jsstring -> bool.

Definition createStringField (min max : nat) : StringSchema :=
  string_ |> trim_ |> min_ min |> max_ max |> messages_ customValidationMessage.

Definition emailField : StringSchema :=
  createStringField EMAIL_MIN EMAIL_MAX
  |> email_ (isEmailValid {| minDomainSegments := 2; tlds_allow := true |})
  |> regex_ Patterns.NO_TEMP_EMAIL "no-temp-email"
  |> pattern_ Patterns.EMAIL
  |> messages_
       [ ("string.pattern.name",
          dq ++ "email" ++ dq ++ " must not be a temporary email address");
         ("string.regex.no-temp-email",
          dq ++ "email" ++ dq ++ " must not be from a temporary email provider (like tempmail, mailinator, or yopmail)");
         ("string.pattern.base", "Please fill a valid email address.") ].

End Fields.
End ValidationService.

(* ===================================================================== *)
(** ** src/modules/api/send-email/sendEmail.schema.js *)
(* ===================================================================== *)

Module SendEmailSchema.
Import Js Joi ValidationService.
Local Open Scope string_scope.

Section Schema.
Variable customValidationMessage : Messages.
Variables EMAIL_MIN EMAIL_MAX : nat.
Variable isEmailValid : EmailOptions -> jsstring -> bool.

(** [sendEmailConstants.lengths], from a file that is not among the sources. *)
Variables SUBJECT_MIN SUBJECT_MAX : nat.

Definition subjectField : StringSchema :=
  createStringField customValidationMessage SUBJECT_MIN SUBJECT_MAX
  |> messages_
       [ ("string.pattern.base",
          "{#label} with value " ++ dq ++ "{#value}" ++ dq ++
          " must start with an uppercase letter followed by lowercase letters for each word, separated by a single space if multiple words. No numbers or special characters are allowed.") ].

Definition sendEmailSchemaBase : ObjectSchema :=
  object_
    [ ("subject", subjectField);
      ("email", emailField customValidationMessage EMAIL_MIN EMAIL_MAX isEmailValid) ]
  |> strict_.

Definition sendEmail : ObjectSchema :=
  sendEmailSchemaBase |> fork ["subject"; "email"] required_.

End Schema.

(** The shape the [string.pattern.base] message of the subject describes:
    words of one uppercase letter followed by lowercase letters, separated
    by single spaces.  No rule of the schema applies it. *)
Definition upper : N -> bool := rng (ch "A") (ch "Z").
Definition lower : N -> bool := rng (ch "a") (ch "z").

Definition word_shape : Regex.re :=
  Regex.Seq (Regex.Chr upper) (Regex.Star (Regex.Chr lower)).

Definition capitalized_words : Regex.re :=
  Regex.Seq Regex.Bol
    (Regex.Seq word_shape
       (Regex.Seq (Regex.Star (Regex.Seq (Regex.Chr (one (ch " "))) word_shape))
          Regex.Eol)).

End SendEmailSchema.

(* ===================================================================== *)
(** ** The response envelope *)
(* ===================================================================== *)

Module Envelope.
Import Js.

(** Modelled from the spec: [constant/httpStatus.constants.js] is not among
    the sources; section 6 gives 201 for the success response and 500 for the
    failure response. *)
Definition CREATED : nat := 201.
Definition INTERNAL_SERVER_ERROR : nat := 500.

(** The ResponseEnvelope of section 3: [{ status, message, route?, data? }]. *)
Record t : Type :=
  { status : nat;
    message : JsValue;
    route : option jsstring;
    data : option JsValue }.

(** Modelled from the spec: [utilities/sendResponse.js] and
    [utilities/errorResponse.js] are not among the sources; section 4.7 has two
    pure constructors, success(data, message, status) and
    failure(message, status), each returning the envelope shape. *)
Definition sendResponse (d : JsValue) (m : JsValue) (st : nat) : t :=
  {| status := st; message := m; route := None; data := Some d |}.

Definition errorResponse (m : JsValue) (st : nat) : t :=
  {| status := st; message := m; route := None; data := None |}.

Definition set_route (r : jsstring) (e : t) : t :=
  {| status := status e; message := message e; route := Some r; data := data e |}.




End Envelope.

(* ===================================================================== *)
(** ** src/modules/api/send-email/sendEmail.service.js *)
(* ===================================================================== *)

Module SendEmailService.
Import Js.
Local Open Scope js_scope.
Local Open Scope string_scope.

(** One line handed to [loggerService.error]: the literal text of the
    template string and the value interpolated after it. *)
Inductive LogEntry : Type :=
| LogError (text : string) (interpolated : JsValue).

(** [const { a, b, ... } = v]: destructuring [undefined] or [null] throws. *)
Definition destructure (v : JsValue) (k : string) : Completion JsValue :=
  match v with
  | JUndefined | JNull =>
      Throw (type_error ("Cannot destructure property '" ++ k ++ "' of '"
                         ++ describe v ++ "'"))
  | _ => get v k
  end.

Section UseCase.

(** The collaborators of the use case, none of them among the sources:
    [shared/prepareEmailContent.js], [shared/prepareEmail.js] and
    [service/email.service.js].  Each returns or throws. *)
Variable prepareEmailContent : JsValue -> JsValue -> Completion JsValue.
Variable prepareEmail :
  JsValue -> JsValue -> JsValue -> JsValue -> JsValue -> Completion JsValue.
Variable EmailService_sendEmail : JsValue -> JsValue -> JsValue -> Completion JsValue.

(** Everything the [try] evaluates before the transport is called: the
    content, its five fields, and the three arguments of the call in order. *)
Definition transport_arguments (emailData : JsValue)
  : Completion (JsValue * JsValue * JsValue) :=
  subject <- get_opt emailData "subject" ;;
  content <- prepareEmailContent subject emailData ;;
  pageTitle <- destructure content "pageTitle" ;;
  preheaderText <- destructure content "preheaderText" ;;
  heroSection <- destructure content "heroSection" ;;
  mainSection <- destructure content "mainSection" ;;
  footerContent <- destructure content "footerContent" ;;
  to <- get emailData "email" ;;
  subject' <- get_opt emailData "subject" ;;
  html <- prepareEmail pageTitle preheaderText heroSection mainSection footerContent ;;
  Normal (to, subject', html).

(** The body of the [try]. *)
Definition attempt (emailData : JsValue) : Completion Envelope.t :=
  args <- transport_arguments emailData ;;
  let '(to, subject, html) := args in
  sendEmailResult <- EmailService_sendEmail to subject html ;;
  Normal (Envelope.sendResponse sendEmailResult (str "Email send successfully.")
            Envelope.CREATED).

(** The body of the [catch]. *)
Definition recover (error : JsValue) : Completion Envelope.t :=
  m <- get error "message" ;;
  Normal (Envelope.errorResponse (js_or m (str "Failed to end email."))
            Envelope.INTERNAL_SERVER_ERROR).

(** What the use case writes to the log. *)
Definition logged (emailData : JsValue) : list LogEntry :=
  match attempt emailData with
  | Normal _ => []
  | Throw error => [LogError "Failed to end email: " error]
  end.

Definition sendEmail (emailData : JsValue) : Completion Envelope.t :=
  try_catch (attempt emailData) recover.

End UseCase.
End SendEmailService.

(* ===================================================================== *)
(** ** The HTTP layer: controller, validator and routes *)
(* ===================================================================== *)

Module Http.
Import Js.

Inductive Method : Type := GET | POST | PUT | PATCH | DELETE | HEAD | OPTIONS.

Definition method_eqb (a b : Method) : bool :=
  match a, b with
  | GET, GET | POST, POST | PUT, PUT | PATCH, PATCH
  | DELETE, DELETE | HEAD, HEAD | OPTIONS, OPTIONS => true
  | _, _ => false
  end.

Record Request : Type :=
  { method : Method; originalUrl : jsstring; body : JsValue }.

(** What a handler can send. *)
Inductive Payload : Type :=
| EnvelopeBody (e : Envelope.t)
| ValidationBody (details : list Joi.Report)
| OtherBody (v : JsValue).

(** The response object: [res.status(c)] and [res.send(b)]. *)
Record Response : Type := { statusCode : nat; sent : option Payload }.

Definition fresh : Response := {| statusCode := 200; sent := None |}.
Definition res_status (c : nat) (r : Response) : Response :=
  {| statusCode := c; sent := sent r |}.
Definition res_send (b : Payload) (r : Response) : Response :=
  {| statusCode := statusCode r; sent := Some b |}.

Inductive Outcome : Type :=
| Responded (r : Response)
| CallNext
| NextError (e : JsValue).

(** What the handlers did to the core. *)
Inductive Event : Type :=
| UseCaseInvoked (emailData : JsValue).

Record Step : Type := { trace : list Event; outcome : Outcome }.

Definition Handler := Request -> Response -> Step.

(** A layer of a route: the method it is mounted for ([None] for [.all]). *)
Definition Layer := (option Method * Handler)%type.

Definition applies (l : Layer) (req : Request) : bool :=
  match fst l with
  | None => true
  | Some m => method_eqb m (method req)
  end.

(** The layers of a route run in mounting order; a layer that does not call
    [next] ends the request. *)
Fixpoint dispatch (layers : list Layer) (req : Request) (res : Response) : Step :=
  match layers with
  | [] => {| trace := []; outcome := CallNext |}
  | l :: rest =>
      if applies l req then
        let st := snd l req res in
        match outcome st with
        | CallNext =>
            let st' := dispatch rest req res in
            {| trace := trace st ++ trace st'; outcome := outcome st' |}
        | _ => st
        end
      else dispatch rest req res
  end.

Definition invoked (st : Step) (emailData : JsValue) : Prop :=
  In (UseCaseInvoked emailData) (trace st).

End Http.

Module SendEmailController.
Import Js Http.

Section Controller.
Variable service_sendEmail : JsValue -> Completion Envelope.t.

(** [sendEmailController.sendEmail].  The wrapper [asyncErrorHandlerService]
    is not among the sources; a rejection of the wrapped function is handed
    to [next]. *)
Definition sendEmail : Handler := fun req res =>
  {| trace := [UseCaseInvoked (body req)];
     outcome :=
       match service_sendEmail (body req) with
       | Normal emailData =>
           let emailData' := Envelope.set_route (originalUrl req) emailData in
           Responded (res |> res_status (Envelope.status emailData')
                          |> res_send (EnvelopeBody emailData'))
       | Throw e => NextError e
       end |}.

End Controller.
End SendEmailController.

Module SendEmailValidator.
Import Js Http.

Section Validator.
Variable schema : Joi.ObjectSchema.

(** Modelled from the spec: [shared/validateWithSchema.js] is not among the
    sources; section 4.5 has it validate the declared request section against
    the declared schema, send a 4xx response that lists every violation when
    the payload is invalid, and pass control on when it is valid. *)
Variable validationStatus : nat.

Definition collect_all : Joi.Prefs := {| Joi.convert := true; Joi.abortEarly := false |}.

Definition validateWithSchema (section : Request -> JsValue) : Handler :=
  fun req res =>
    let r := Joi.validate_object collect_all schema (section req) in
    {| trace := [];
       outcome :=
         if Joi.is_valid r then CallNext
         else Responded (res |> res_status validationStatus
                             |> res_send (ValidationBody (Joi.errors r))) |}.

(** [sendEmailValidator.sendEmail] *)
Definition sendEmail : Handler := validateWithSchema body.

End Validator.
End SendEmailValidator.

Module SendEmailRoutes.
Import Js Http.

Section Routes.
Variable controller : Handler.
Variable validator : Handler.

(** [shared/methodNotSupported.js] is not among the sources. *)
Variable methodNotSupported : Handler.

(** [router.route('/').post(sendEmailController.sendEmail).all(methodNotSupported)]:
    in the source the validator argument of [.post] is commented out. *)
Definition router : list Layer :=
  [ (Some POST, controller); (None, methodNotSupported) ].

(** The route with the commented-out argument restored. *)
Definition router_with_validator : list Layer :=
  [ (Some POST, validator); (Some POST, controller); (None, methodNotSupported) ].

End Routes.
End SendEmailRoutes.

(* ===================================================================== *)
(** ** The configuration module (second half of validation.service.js) *)
(* ===================================================================== *)

Module Configuration.
Import Js.
Local Open Scope js_scope.
Local Open Scope string_scope.

(** [envVar === undefined || envVar === null || envVar === ''] *)
Definition is_unset (v : JsValue) : bool :=
  match v with
  | JUndefined | JNull => true
  | JString [] => true
  | _ => false
  end.

(** [getEnvVar] *)
Definition getEnvVar (envVar defaultValue : JsValue) : JsValue :=
  if is_unset envVar then defaultValue else envVar.

Definition is_digit : N -> bool := rng 48 57.
Definition is_sign (c : N) : bool := one (ch "+") c || one (ch "-") c.
Definition digit_value (c : N) : Z := Z.of_N c - 48.

Fixpoint takeWhile (p : N -> bool) (s : jsstring) : jsstring :=
  match s with
  | [] => []
  | c :: rest => if p c then c :: takeWhile p rest else []
  end.

(** The integer a run of decimal digits denotes. *)
Definition digits_value (ds : jsstring) : Z :=
  fold_left (fun acc c => 10 * acc + digit_value c)%Z ds 0%Z.

(** [parseInt(string, 10)] on a string: leading white space is skipped, one
    sign is read, then the longest run of decimal digits; [None] is NaN.
    A result beyond 2^53 stands for the Number nearest to it. *)
Definition parseInt10 (s : jsstring) : option Z :=
  let trimmed := trimStart s in
  let '(sign, body) :=
    match trimmed with
    | c :: rest =>
        if one (ch "-") c then ((-1)%Z, rest)
        else if one (ch "+") c then (1%Z, rest)
        else (1%Z, trimmed)
    | [] => (1%Z, [])
    end in
  match takeWhile is_digit body with
  | [] => None
  | ds => Some (sign * digits_value ds)%Z
  end.

(** [Error.prototype.toString] *)
Definition error_to_string (name : string) (message : jsstring) : jsstring :=
  match u16 name, message with
  | [], _ => message
  | n, [] => n
  | n, m => (n ++ u16 ": " ++ m)%list
  end.

Section ToString.

(** The decimal rendering of a Number is the language's. *)
Variable number_to_string : Z -> jsstring.

(** ToString, which [parseInt] applies to its argument. *)
Definition to_string (v : JsValue) : jsstring :=
  match v with
  | JUndefined => u16 "undefined"
  | JNull => u16 "null"
  | JBool true => u16 "true"
  | JBool false => u16 "false"
  | JNumber z => number_to_string z
  | JString s => s
  | JObject _ => u16 "[object Object]"
  | JError name message => error_to_string name message
  end.

(** [getInt]: [isNaN(parsed) ? defaultValue : parsed] *)
Definition getInt (envVar defaultValue : JsValue) : JsValue :=
  match parseInt10 (to_string envVar) with
  | None => defaultValue
  | Some parsed => JNumber parsed
  end.

End ToString.

(** [String.prototype.split] on a one-unit separator. *)
Fixpoint split_on (sep : N) (s : jsstring) : list jsstring :=
  match s with
  | [] => [[]]
  | c :: rest =>
      if (c =? sep)%N then [] :: split_on sep rest
      else match split_on sep rest with
           | h :: t => (c :: h) :: t
           | [] => [[c]]
           end
  end.

(** [v.split(',').map((x) => x.trim())]; only a string has [split]. *)
Definition comma_list (v : JsValue) : Completion (list jsstring) :=
  match v with
  | JString s => Normal (map trim (split_on (ch ",") s))
  | _ =>
      _ <- get v "split" ;;
      Throw (type_error "getEnvVar(...).split is not a function")
  end.

Definition cors_methods (CORS_METHODS : JsValue) : Completion (list jsstring) :=
  comma_list (getEnvVar CORS_METHODS (JString [])).

End Configuration.

(* ===================================================================== *)
(** ** Vocabulary of the statements *)
(* ===================================================================== *)

Import Js.

(** The last unit of [pre] is a word unit; the first unit of [post] is. *)
Definition ends_in_word (pre : jsstring) : bool :=
  match rev pre with c :: _ => is_word c | [] => false end.
Definition starts_with_word (post : jsstring) : bool :=
  match post with c :: _ => is_word c | [] => false end.

(** [w] occurs in [s] as a whole word: no word unit touches the occurrence. *)
Definition whole_word (w s : jsstring) : Prop :=
  exists pre post,
    s = pre ++ w ++ post /\ ends_in_word pre = false /\ starts_with_word post = false.


Definition length_violation (c : Joi.Code) : Prop :=
  c = Joi.string_min \/ c = Joi.string_max.


Definition nullish (v : JsValue) : Prop := v = JUndefined \/ v = JNull.

(** A collaborator that, when it throws, throws an object. *)
Definition throws_objects {A} (c : Completion A) : Prop :=
  forall e, c = Throw e -> ~ nullish e.


Definition not_line_terminator (c : N) : Prop := is_line_terminator c = false.

(** *** Stand-ins for the collaborators, for the concrete instances *)

Module Stub.
Local Open Scope string_scope.

Definition content : JsValue :=
  JObject [ ("pageTitle", str "t"); ("preheaderText", str "p");
            ("heroSection", str "h"); ("mainSection", str "m");
            ("footerContent", str "f") ].

Definition prepareEmailContent (subject emailData : JsValue) : Completion JsValue :=
  Normal content.

Definition prepareEmail (a b c d e : JsValue) : Completion JsValue :=
  Normal (str "<html></html>").

Definition delivery : JsValue := JObject [ ("messageId", str "<1@example.com>") ].

(** A transport that always succeeds, and one that always fails. *)
Definition transport_ok (to subject html : JsValue) : Completion JsValue :=
  Normal delivery.
Definition transport_refused (to subject html : JsValue) : Completion JsValue :=
  Throw (JError "Error" (u16 "connection refused")).

(** An address analysis that lets everything through: the weakest one. *)
Definition any_address (_ : ValidationService.EmailOptions) (_ : jsstring) : bool := true.

Definition not_supported : Http.Handler := fun _ res =>
  {| Http.trace := [];
     Http.outcome := Http.Responded (Http.res_send (Http.OtherBody JNull)
                                        (Http.res_status 405 res)) |}.

Definition weekly_update : JsValue :=
  JObject [ ("subject", str "Weekly Update"); ("email", str "user@example.com") ].

End Stub.

(* ===================================================================== *)
(** ** Facts about the matcher *)
(* ===================================================================== *)

(** *** Further vocabulary *)

(** The preferences a child of the request schema is validated with. *)
Definition strict_with (p : Joi.Prefs) : Joi.Prefs :=
  {| Joi.convert := false; Joi.abortEarly := Joi.abortEarly p |}.

Definition provider_names : list jsstring :=
  [u16 "tempmail"; u16 "mailinator"; u16 "yopmail"].

(** [parts.join('.')] *)
Fixpoint join_dots (parts : list jsstring) : jsstring :=
  match parts with
  | [] => []
  | [x] => x
  | x :: rest => x ++ ch "." :: join_dots rest
  end.

(** Each label followed by a full stop. *)
Definition dotted (labels : list jsstring) : jsstring :=
  List.concat (map (fun l => l ++ [ch "."]) labels).

(** [local@label.(label.)*tld] *)
Definition plain_address (locals labels : list jsstring) (tld : jsstring) : jsstring :=
  join_dots locals ++ ch "@" :: dotted labels ++ tld.

Definition all_units (p : N -> bool) (s : jsstring) : Prop :=
  Forall (fun c => p c = true) s.

(** The text starts the way a decimal integer does: an optional sign, then a
    digit. *)
Definition numeric_start (s : jsstring) : bool :=
  match s with
  | c :: rest =>
      if Configuration.is_sign c
      then match rest with d :: _ => Configuration.is_digit d | [] => false end
      else Configuration.is_digit c
  | [] => false
  end.

(** [value[key]] *)
Definition item (k : string) (fields : list (string * JsValue)) : JsValue :=
  match lookup k fields with Some x => x | None => JUndefined end.

(** The pattern [r] can consume exactly [w], wherever [w] stands. *)
Definition spans (r : Regex.re) (w : jsstring) : Prop :=
  forall b rest,
    Regex.matches r (Regex.Pos b (w ++ rest)) (Regex.Pos (rev w ++ b) rest).

(** The address pattern of [patterns.EMAIL] without its lookahead. *)
Definition EMAIL_SHAPE : Regex.re := Regex.Seq Regex.Bol Patterns.email_body.

Unset Implicit Arguments.

Section MatcherFacts.
Import Regex.

Lemma pos_eta (z : pos) : Pos (before z) (after z) = z.
Proof. destruct z; reflexivity. Qed.

(** The bounded iteration computes the closure, once the fuel covers the
    remaining subject. *)
Lemma star_iter_sound (f : pos -> list pos) (R : pos -> pos -> Prop) :
  (forall z z', In z' (f z) -> R z z') ->
  forall n z z', In z' (star_iter f n z) -> star_rel R z z'.
Proof.
  intros Hf n; induction n as [|n IH]; intros z z' Hin; simpl in Hin.
  - destruct Hin as [<-|[]]. constructor.
  - destruct Hin as [<-|Hin]; [constructor|].
    apply in_flat_map in Hin. destruct Hin as [z1 [H1 H2]].
    destruct (Nat.ltb_spec (List.length (after z1)) (List.length (after z))) as [Hlt|Hge];
      [|destruct H2].
    eapply star_more; eauto.
Qed.

Lemma star_iter_complete (f : pos -> list pos) (R : pos -> pos -> Prop) :
  (forall z z', R z z' -> In z' (f z)) ->
  forall z z', star_rel R z z' ->
  forall n, List.length (after z) <= n -> In z' (star_iter f n z).
Proof.
  intros Hf z z' Hs; induction Hs as [z|z z1 z2 HR Hlt Hs IH]; intros n Hn.
  - destruct n; simpl; auto.
  - destruct n as [|n]; [lia|]. simpl. right.
    apply in_flat_map. exists z1. split; [auto|].
    destruct (Nat.ltb_spec (List.length (after z1)) (List.length (after z))); [|lia].
    apply IH. lia.
Qed.

(** The matcher computes exactly the declarative reading. *)
Lemma run_matches (r : re) : forall z z', In z' (run r z) <-> matches r z z'.
Proof.
  induction r as [|p|a IHa b IHb|a IHa b IHb|a IHa|a IHa| | |]; intros z z'; simpl.
  - split; [intros [<-|[]]; reflexivity | intros ->; left; reflexivity].
  - destruct (after z) as [|c rest] eqn:E.
    + split; [intros []|intros (c & rest & H & _); discriminate].
    + destruct (p c) eqn:Hp.
      * split.
        -- intros [<-|[]]. exists c, rest. unfold advance. auto.
        -- intros (c' & rest' & H & _ & ->). inversion H; subst. left; reflexivity.
      * split; [intros []|].
        intros (c' & rest' & H & Hp' & _). inversion H; subst. congruence.
  - rewrite in_flat_map. split.
    + intros (z1 & H1 & H2). exists z1. split; [apply IHa|apply IHb]; assumption.
    + intros (z1 & H1 & H2). exists z1. split; [apply IHa|apply IHb]; assumption.
  - rewrite in_app_iff, IHa, IHb. reflexivity.
  - split.
    + apply star_iter_sound. intros; apply IHa; assumption.
    + intros H. eapply star_iter_complete; eauto. intros; apply IHa; assumption.
  - destruct (run a z) as [|z1 l] eqn:E.
    + split.
      * intros [<-|[]]. split; [reflexivity|]. intros z1 H. apply IHa in H.
        rewrite E in H. destruct H.
      * intros [-> _]. left; reflexivity.
    + split; [intros []|]. intros [_ H]. exfalso. apply (H z1). apply IHa.
      rewrite E. left; reflexivity.
  - destruct (before z); split; try (intros [<-|[]]; auto); try (intros [-> H]);
      try discriminate; try (left; reflexivity). intros [].
  - destruct (after z); split; try (intros [<-|[]]; auto); try (intros [-> H]);
      try discriminate; try (left; reflexivity). intros [].
  - destruct (xorb (word_before z) (word_after z)); split;
      try (intros [<-|[]]; auto); try (intros [-> H]);
      try discriminate; try (left; reflexivity). intros [].
Qed.

Lemma matches_at_true (r : re) (z : pos) :
  matches_at r z = true <-> exists z', matches r z z'.
Proof.
  unfold matches_at. destruct (run r z) as [|z1 l] eqn:E.
  - split; [discriminate|]. intros [z' H]. apply run_matches in H.
    rewrite E in H. destruct H.
  - split; [|reflexivity]. intros _. exists z1. apply run_matches.
    rewrite E. left; reflexivity.
Qed.

Lemma positions_from_first (b a : jsstring) (z : pos) :
  In z (positions_from b a) -> z = Pos b a \/ before z <> [].
Proof.
  revert b; induction a as [|c a IH]; intros b Hin; simpl in Hin.
  - destruct Hin as [<-|[]]; auto.
  - destruct Hin as [<-|Hin]; [auto|]. right.
    destruct (IH _ Hin) as [->|H]; [simpl; discriminate|assumption].
Qed.

(** A pattern that opens with [^] can only match from the start. *)
Lemma test_anchored (r : re) (s : jsstring) :
  test (Seq Bol r) s = true <-> exists z', matches r (Pos [] s) z'.
Proof.
  unfold test. rewrite existsb_exists. split.
  - intros (z & Hin & Hm). apply matches_at_true in Hm. destruct Hm as [z' Hm].
    simpl in Hm. destruct Hm as (z1 & [-> Hb] & Hm).
    destruct (positions_from_first _ _ _ Hin) as [->|Hne]; [|contradiction].
    exists z'. assumption.
  - intros [z' Hm]. exists (Pos [] s). split.
    + destruct s; simpl; auto.
    + apply matches_at_true. exists z'. simpl. exists (Pos [] s). auto.
Qed.

(** What a match consumed lies between its two ends, and every consumed
    unit belongs to the classes of the pattern. *)
Lemma matches_span (P : N -> Prop) (r : re) :
  consumes_only P r ->
  forall z z', matches r z z' ->
  exists w, after z = w ++ after z' /\ before z' = rev w ++ before z /\ Forall P w.
Proof.
  induction r as [|p|a IHa b IHb|a IHa b IHb|a IHa|a IHa| | |]; simpl; intros HP z z' Hm;
    try (match type of Hm with _ /\ _ => destruct Hm as [Hz _] end;
         subst z'; exists []; simpl; repeat split; constructor).
  - subst. exists []; simpl; repeat split; constructor.
  - destruct Hm as (c & rest & E & Hp & ->). exists [c]. simpl. rewrite E.
    repeat split. constructor; auto.
  - destruct HP as [Ha Hb]. destruct Hm as (z1 & H1 & H2).
    destruct (IHa Ha _ _ H1) as (w1 & E1 & B1 & F1).
    destruct (IHb Hb _ _ H2) as (w2 & E2 & B2 & F2).
    exists (w1 ++ w2). rewrite E1, E2, B2, B1, rev_app_distr, !app_assoc.
    repeat split. apply Forall_app; auto.
  - destruct HP as [Ha Hb]. destruct Hm as [H|H]; [apply IHa|apply IHb]; auto.
  - induction Hm as [z|z z1 z2 HR Hlt Hs IH].
    + exists []; simpl; auto.
    + destruct (IHa HP _ _ HR) as (w1 & E1 & B1 & F1).
      destruct IH as (w2 & E2 & B2 & F2).
      exists (w1 ++ w2). rewrite E1, E2, B2, B1, rev_app_distr, !app_assoc.
      repeat split. apply Forall_app; auto.
Qed.

Lemma matches_extent (r : re) (z z' : pos) :
  matches r z z' ->
  exists w, after z = w ++ after z' /\ before z' = rev w ++ before z.
Proof.
  intros H.
  assert (HT : consumes_only (fun _ => True) r).
  { clear. induction r; simpl; auto. }
  destruct (matches_span _ _ HT _ _ H) as (w & E & B & _). eauto.
Qed.


Lemma matches_Lit (a : jsstring) : forall b post,
  matches (Lit a) (Pos b (a ++ post)) (Pos (rev a ++ b) post).
Proof.
  induction a as [|c a IH]; intros b post; simpl.
  - reflexivity.
  - exists (Pos (c :: b) (a ++ post)). split.
    + exists c, (a ++ post). unfold one, advance. simpl. rewrite N.eqb_refl. auto.
    + rewrite <- app_assoc. simpl. apply IH.
Qed.

Lemma star_Dot (pre : jsstring) : forall b rest,
  Forall not_line_terminator pre ->
  matches (Star Dot) (Pos b (pre ++ rest)) (Pos (rev pre ++ b) rest).
Proof.
  induction pre as [|c pre IH]; intros b rest HF; simpl.
  - constructor.
  - inversion HF as [|? ? Hc HF']; subst.
    apply star_more with (z1 := Pos (c :: b) (pre ++ rest)).
    + exists c, (pre ++ rest). unfold advance. simpl.
      unfold not_line_terminator in Hc. rewrite Hc. auto.
    + simpl. lia.
    + rewrite <- app_assoc. simpl. apply (IH (c :: b) rest HF').
Qed.

End MatcherFacts.

(* ===================================================================== *)
(** ** Facts about trimming and about the character classes *)
(* ===================================================================== *)

Section StringFacts.

Lemma dropWhile_stop (p : N -> bool) (a b : jsstring) (c : N) :
  p c = false -> dropWhile p (a ++ c :: b) = dropWhile p a ++ c :: b.
Proof.
  intros Hc. induction a as [|x a IH]; simpl.
  - rewrite Hc. reflexivity.
  - destruct (p x); [assumption|reflexivity].
Qed.

Lemma dropWhile_suffix (p : N -> bool) (s : jsstring) :
  exists a, s = a ++ dropWhile p s /\ Forall (fun c => p c = true) a.
Proof.
  induction s as [|x s IH]; simpl.
  - exists []. auto.
  - destruct (p x) eqn:E.
    + destruct IH as (a & E' & F). exists (x :: a). simpl. split; [congruence|auto].
    + exists []. auto.
Qed.

Lemma dropWhile_head (p : N -> bool) (s : jsstring) (c : N) (t : jsstring) :
  dropWhile p s = c :: t -> p c = false.
Proof.
  induction s as [|x s IH]; simpl; [discriminate|].
  destruct (p x) eqn:E; [assumption|]. intros H; inversion H; subst. assumption.
Qed.

Lemma dropWhile_fixed (p : N -> bool) (s : jsstring) :
  match s with c :: _ => p c = false | [] => True end -> dropWhile p s = s.
Proof. destruct s as [|c s]; simpl; [reflexivity|]. intros ->. reflexivity. Qed.

Lemma trimStart_stop (a b : jsstring) (c : N) :
  is_space c = false -> trimStart (a ++ c :: b) = trimStart a ++ c :: b.
Proof. apply dropWhile_stop. Qed.

Lemma trimEnd_stop (a b : jsstring) (c : N) :
  is_space c = false -> trimEnd (a ++ c :: b) = a ++ c :: trimEnd b.
Proof.
  intros Hc. unfold trimEnd. rewrite rev_app_distr. simpl. rewrite <- app_assoc. simpl.
  rewrite dropWhile_stop by assumption.
  rewrite rev_app_distr. simpl. rewrite rev_involutive, <- app_assoc. reflexivity.
Qed.

(** Trimming leaves alone a part that begins and ends with non-space units. *)
Lemma trim_around (pre mid post : jsstring) (f l : N) :
  is_space f = false -> is_space l = false ->
  trim (pre ++ (f :: mid ++ [l]) ++ post)
  = trimStart pre ++ (f :: mid ++ [l]) ++ trimEnd post.
Proof.
  intros Hf Hl. unfold trim. simpl. rewrite trimStart_stop by assumption.
  replace (trimStart pre ++ f :: (mid ++ [l]) ++ post)
    with ((trimStart pre ++ f :: mid) ++ l :: post)
    by (rewrite <- !app_assoc; reflexivity).
  rewrite trimEnd_stop by assumption. rewrite <- !app_assoc. reflexivity.
Qed.

Lemma trimEnd_prefix (s : jsstring) :
  exists b, s = trimEnd s ++ b /\ Forall (fun c => is_space c = true) b.
Proof.
  unfold trimEnd. destruct (dropWhile_suffix is_space (rev s)) as (a & E & F).
  exists (rev a). split.
  - rewrite <- rev_app_distr, <- E, rev_involutive. reflexivity.
  - apply Forall_rev. assumption.
Qed.

Lemma trimStart_suffix (s : jsstring) :
  exists a, s = a ++ trimStart s /\ Forall (fun c => is_space c = true) a.
Proof. apply dropWhile_suffix. Qed.


Lemma trimEnd_last (s : jsstring) (t : jsstring) (c : N) :
  trimEnd s = t ++ [c] -> is_space c = false.
Proof.
  unfold trimEnd. intros H.
  assert (E : dropWhile is_space (rev s) = c :: rev t).
  { rewrite <- (rev_involutive (dropWhile is_space (rev s))), H, rev_app_distr.
    reflexivity. }
  eapply dropWhile_head; eauto.
Qed.

Lemma trimEnd_fixed (s : jsstring) :
  match rev s with c :: _ => is_space c = false | [] => True end -> trimEnd s = s.
Proof.
  intros H. unfold trimEnd. rewrite dropWhile_fixed by assumption.
  apply rev_involutive.
Qed.

Lemma trim_idempotent (s : jsstring) : trim (trim s) = trim s.
Proof.
  unfold trim. set (t := trimStart s).
  assert (Hs : trimStart (trimEnd t) = trimEnd t).
  { apply dropWhile_fixed. destruct (trimEnd t) as [|c u] eqn:E; [exact I|].
    destruct (trimEnd_prefix t) as (b & Eb & _). rewrite E in Eb.
    unfold t, trimStart in Eb. simpl in Eb.
    eapply dropWhile_head; eauto. }
  rewrite Hs. apply trimEnd_fixed.
  destruct (rev (trimEnd t)) as [|c u] eqn:E; [exact I|].
  apply (trimEnd_last t (rev u)).
  rewrite <- (rev_involutive (trimEnd t)), E. reflexivity.
Qed.

(** A string that begins and ends with non-space units is its own trim. *)
Lemma trim_fixed (s : jsstring) :
  match s with c :: _ => is_space c = false | [] => True end ->
  match rev s with c :: _ => is_space c = false | [] => True end ->
  trim s = s.
Proof.
  intros H1 H2. unfold trim, trimStart. rewrite dropWhile_fixed by assumption.
  apply trimEnd_fixed; assumption.
Qed.

Lemma dropWhile_length (p : N -> bool) (s : jsstring) :
  List.length (dropWhile p s) <= List.length s.
Proof.
  induction s as [|x s IH]; simpl; [lia|]. destruct (p x); simpl; lia.
Qed.

Lemma dropWhile_all (p : N -> bool) (s : jsstring) :
  Forall (fun c => p c = true) s -> dropWhile p s = [].
Proof.
  induction 1 as [|x s Hx _ IH]; simpl; [reflexivity|]. rewrite Hx. exact IH.
Qed.

Lemma trimEnd_length (s : jsstring) : List.length (trimEnd s) <= List.length s.
Proof.
  unfold trimEnd. rewrite length_rev.
  pose proof (dropWhile_length is_space (rev s)) as H. rewrite length_rev in H.
  exact H.
Qed.

(** A string that is its own trim begins with a non-space unit. *)
Lemma trim_fixed_head (c : N) (w : jsstring) :
  trim (c :: w) = c :: w -> is_space c = false.
Proof.
  intros H. destruct (is_space c) eqn:E; [|reflexivity]. exfalso.
  assert (L : List.length (trim (c :: w)) <= List.length w).
  { unfold trim, trimStart. simpl. rewrite E.
    pose proof (trimEnd_length (dropWhile is_space w)).
    pose proof (dropWhile_length is_space w). lia. }
  rewrite H in L. simpl in L. lia.
Qed.

(** White space after a trimmed, non-empty string is trimmed away. *)
Lemma trim_padding (w pad : jsstring) :
  w <> [] -> trim w = w -> Forall (fun c => is_space c = true) pad ->
  trim (w ++ pad) = w.
Proof.
  intros Hne Ht Hpad. destruct w as [|c w']; [contradiction|].
  pose proof (trim_fixed_head _ _ Ht) as Hc.
  assert (Hs : trimStart (c :: w') = c :: w').
  { unfold trimStart. simpl. rewrite Hc. reflexivity. }
  assert (He : trimEnd (c :: w') = c :: w').
  { unfold trim in Ht. rewrite Hs in Ht. exact Ht. }
  destruct (@exists_last _ (c :: w')) as (u & l & Eu); [discriminate|].
  assert (Hl : is_space l = false).
  { apply (trimEnd_last (c :: w') u). rewrite He. exact Eu. }
  unfold trim. replace (trimStart ((c :: w') ++ pad)) with ((c :: w') ++ pad)
    by (unfold trimStart; simpl; rewrite Hc; reflexivity).
  rewrite Eu, <- app_assoc. simpl. rewrite trimEnd_stop by assumption.
  unfold trimEnd at 1. rewrite dropWhile_all; [reflexivity|].
  apply Forall_rev. assumption.
Qed.

Lemma jsstring_eqb_eq (a b : jsstring) : jsstring_eqb a b = true <-> a = b.
Proof.
  unfold jsstring_eqb. destruct (list_eq_dec N.eq_dec a b); split; congruence.
Qed.

(** Occurrences survive trimming when they begin and end with non-space units. *)
Lemma contains_trim (mid s : jsstring) (f l : N) :
  is_space f = false -> is_space l = false ->
  contains (f :: mid ++ [l]) s -> contains (f :: mid ++ [l]) (trim s).
Proof.
  intros Hf Hl (pre & post & ->).
  exists (trimStart pre), (trimEnd post). apply trim_around; assumption.
Qed.

Lemma ends_in_word_trimStart (pre : jsstring) :
  ends_in_word pre = false -> ends_in_word (trimStart pre) = false.
Proof.
  unfold ends_in_word. destruct (trimStart_suffix pre) as (a & E & _).
  intros H. rewrite E, rev_app_distr in H.
  destruct (rev (trimStart pre)); [reflexivity|exact H].
Qed.

Lemma starts_with_word_trimEnd (post : jsstring) :
  starts_with_word post = false -> starts_with_word (trimEnd post) = false.
Proof.
  unfold starts_with_word. destruct (trimEnd_prefix post) as (b & E & _).
  intros H. rewrite E in H. destruct (trimEnd post); [reflexivity|exact H].
Qed.

Lemma whole_word_trim (mid s : jsstring) (f l : N) :
  is_space f = false -> is_space l = false ->
  whole_word (f :: mid ++ [l]) s -> whole_word (f :: mid ++ [l]) (trim s).
Proof.
  intros Hf Hl (pre & post & -> & Hb & Ha).
  exists (trimStart pre), (trimEnd post). repeat split.
  - apply trim_around; assumption.
  - apply ends_in_word_trimStart; assumption.
  - apply starts_with_word_trimEnd; assumption.
Qed.

End StringFacts.

Section AtThenDot.






End AtThenDot.

Import Patterns.

Ltac eval_ch :=
  repeat match goal with
    | |- context [ch ?a] =>
        let v := eval vm_compute in (ch a) in change (ch a) with v
    | H : context [ch ?a] |- _ =>
        let v := eval vm_compute in (ch a) in change (ch a) with v in H
    end.

(** Membership in the classes, turned into arithmetic on the code unit. *)
Ltac class_cases :=
  unfold not_line_terminator, atom_char, host_char, alpha, digit,
    SendEmailSchema.upper, SendEmailSchema.lower, is_space,
    is_line_terminator, is_word, none_of, any_of, rng, one, quote in *;
  cbn [existsb] in *; eval_ch;
  repeat rewrite ?negb_true_iff, ?negb_false_iff, ?orb_true_iff, ?orb_false_iff,
    ?andb_true_iff, ?andb_false_iff, ?N.eqb_eq, ?N.eqb_neq, ?N.leb_le, ?N.leb_gt in *;
  try lia.

Section ClassFacts.

Lemma line_terminator_is_space (c : N) :
  is_line_terminator c = true -> is_space c = true.
Proof. intros H. class_cases. Qed.

Lemma atom_char_not_lt (c : N) : atom_char c = true -> not_line_terminator c.
Proof. intros H. class_cases. Qed.

Lemma host_char_not_lt (c : N) : host_char c = true -> not_line_terminator c.
Proof. intros H. class_cases. Qed.

Lemma alpha_not_lt (c : N) : alpha c = true -> not_line_terminator c.
Proof. intros H. class_cases. Qed.

Lemma digit_not_lt (c : N) : digit c = true -> not_line_terminator c.
Proof. intros H. class_cases. Qed.

Lemma literal_not_lt (a : ascii) (c : N) :
  is_line_terminator (ch a) = false -> one (ch a) c = true -> not_line_terminator c.
Proof.
  intros Ha H. unfold one in H. apply N.eqb_eq in H. subst c. exact Ha.
Qed.

Lemma dot_not_lt (c : N) :
  negb (is_line_terminator c) = true -> not_line_terminator c.
Proof. intros H. apply negb_true_iff in H. exact H. Qed.

End ClassFacts.

(* ===================================================================== *)
(** ** Facts about the two patterns of the email field *)
(* ===================================================================== *)

Section PatternFacts.
Import Regex Patterns.

(** When [((?!g).)*] reaches the end of the subject, the lookahead held at
    every position before the end. *)
Lemma star_lookahead_everywhere (g : re) (z z' : pos) :
  star_rel (matches (Seq (NegLook g) Dot)) z z' ->
  after z' = [] ->
  forall pre post, after z = pre ++ post -> post <> [] ->
  forall zz, ~ matches g (Pos (rev pre ++ before z) post) zz.
Proof.
  intros Hs; induction Hs as [z|z z1 z2 HR Hlt Hs IH]; intros Hend pre post E Hne zz.
  - rewrite Hend in E. symmetry in E. apply app_eq_nil in E. destruct E as [_ E].
    contradiction.
  - destruct HR as (z0 & [-> Hno] & (c & rest & Ea & _ & ->)).
    destruct pre as [|c' pre].
    + simpl in *. subst post. rewrite pos_eta. apply Hno.
    + rewrite Ea in E. simpl in E. inversion E; subst c' rest.
      specialize (IH Hend pre post eq_refl Hne zz).
      unfold advance in IH. simpl in IH. simpl. rewrite <- app_assoc. exact IH.
Qed.

Lemma providers_match (lit b post : jsstring) :
  In lit [u16 "tempmail"; u16 "mailinator"; u16 "yopmail"] ->
  exists zz, matches providers (Pos b (lit ++ post)) zz.
Proof.
  intros Hin. exists (Pos (rev lit ++ b) post). unfold providers.
  destruct Hin as [<-|[<-|[<-|[]]]].
  - left. apply matches_Lit.
  - right; left. apply matches_Lit.
  - right; right. apply matches_Lit.
Qed.

(** The deny pattern fails on every string that holds a provider name. *)
Lemma no_temp_email_rejects (lit v : jsstring) :
  In lit [u16 "tempmail"; u16 "mailinator"; u16 "yopmail"] ->
  contains lit v -> test NO_TEMP_EMAIL v = false.
Proof.
  intros Hin (pre & post & ->).
  destruct (test NO_TEMP_EMAIL (pre ++ lit ++ post)) eqn:T; [|reflexivity].
  exfalso. unfold NO_TEMP_EMAIL in T. apply test_anchored in T.
  destruct T as (z' & z1 & Hs & [-> Hend]).
  destruct (providers_match lit (rev pre ++ []) post Hin) as [zz Hzz].
  change (star_rel (matches (Seq (NegLook providers) Dot))
            (Pos [] (pre ++ lit ++ post)) z1) in Hs.
  refine (star_lookahead_everywhere _ _ _ Hs Hend pre (lit ++ post) eq_refl _ zz Hzz).
  destruct Hin as [<-|[<-|[<-|[]]]]; discriminate.
Qed.

Lemma email_body_units : consumes_only not_line_terminator email_body.
Proof.
  cbn. unfold c_.
  repeat split; intros c H;
    first [ apply atom_char_not_lt; assumption
          | apply host_char_not_lt; assumption
          | apply alpha_not_lt; assumption
          | apply digit_not_lt; assumption
          | apply dot_not_lt; assumption
          | eapply literal_not_lt; [|eassumption]; reflexivity
          | unfold one, quote in H; apply N.eqb_eq in H; subst c; reflexivity ].
Qed.

Lemma email_unfold (v : jsstring) :
  test EMAIL v = true <->
  (forall zz, ~ matches temp_word (Pos [] v) zz) /\
  exists z', matches email_body (Pos [] v) z'.
Proof.
  unfold EMAIL. rewrite test_anchored. split.
  - intros (z' & z1 & [-> Hno] & H). split; [exact Hno|]. exists z'. exact H.
  - intros (Hno & z' & H). exists z', (Pos [] v). split; [split; auto|exact H].
Qed.

(** A match of the address body covers the whole subject. *)
Lemma email_body_whole (v : jsstring) (z' : pos) :
  matches email_body (Pos [] v) z' -> after z' = [].
Proof.
  intros (z1 & _ & z2 & _ & z3 & _ & -> & H). exact H.
Qed.

(** [patterns.EMAIL] fails on every string in which [temp] stands as a
    whole word. *)
Lemma email_rejects_temp_word (v : jsstring) :
  whole_word (u16 "temp") v -> test EMAIL v = false.
Proof.
  intros (pre & post & -> & Hb & Ha).
  destruct (test EMAIL (pre ++ u16 "temp" ++ post)) eqn:T; [|reflexivity].
  exfalso. apply email_unfold in T. destruct T as (Hno & z' & Hm).
  pose proof (email_body_whole _ _ Hm) as Hend.
  destruct (matches_span _ _ email_body_units _ _ Hm) as (w & E & _ & F).
  simpl in E. rewrite Hend, app_nil_r in E. subst w.
  apply Forall_app in F. destruct F as [Fpre _].
  apply (Hno (Pos (rev (u16 "temp") ++ rev pre ++ []) post)).
  exists (Pos (rev pre ++ []) (u16 "temp" ++ post)). split.
  { apply star_Dot. exact Fpre. }
  exists (Pos (rev pre ++ []) (u16 "temp" ++ post)). split.
  { split; [reflexivity|]. unfold word_before, word_after. simpl.
    rewrite app_nil_r. unfold ends_in_word in Hb. rewrite Hb. reflexivity. }
  exists (Pos (rev (u16 "temp") ++ rev pre ++ []) post). split.
  { apply matches_Lit. }
  split; [reflexivity|]. unfold word_before, word_after. simpl.
  unfold starts_with_word in Ha. rewrite Ha. reflexivity.
Qed.



End PatternFacts.

(** The examples in the documentation comment of [patterns.EMAIL]. *)
Example EMAIL_documented_examples :
  map (fun a => Regex.test Patterns.EMAIL (u16 a))
      [ "example@example.com"; "user.name@sub.domain.com";
        "example.com"; "example@.com" ]%string
  = [true; true; false; false].
Proof. vm_compute. reflexivity. Qed.

(** The deny pattern compares code units: another letter case passes. *)
Example deny_pattern_is_case_sensitive :
  map (fun a => Regex.test Patterns.NO_TEMP_EMAIL (u16 a))
      [ "user@yopmail.com"; "user@YopMail.com"; "mailinator"; "my-tempmail-box@x.org" ]%string
  = [false; true; false; false].
Proof. vm_compute. reflexivity. Qed.

(** [temp] as a whole word is refused by [patterns.EMAIL] and by nothing
    else: the deny pattern lets such an address through, and [patterns.EMAIL]
    lets [temp] through inside a longer word. *)
Example temp_word_examples :
  map (fun a => (Regex.test Patterns.EMAIL (u16 a),
                 Regex.test Patterns.NO_TEMP_EMAIL (u16 a)))
      [ "user@temp.mail.com"; "temp.user@example.com";
        "template@example.com"; "user@tempmail.com" ]%string
  = [(false, true); (false, true); (true, true); (true, false)].
Proof. vm_compute. reflexivity. Qed.

(* ===================================================================== *)
(** ** Facts about the rule loop *)
(* ===================================================================== *)

Section RuleLoop.
Import Joi.

Lemma run_rules_keeps (p : Prefs) (rs : list Rule) (v : jsstring) :
  forall acc, acc <> [] -> run_rules p rs v acc <> [].
Proof.
  induction rs as [|r rs IH]; intros acc Hacc; simpl; [assumption|].
  destruct (check_rule p r v) as [c|]; [|apply IH; assumption].
  destruct (abortEarly p); [discriminate|].
  apply IH. destruct acc; discriminate.
Qed.

(** A failing rule makes the loop report something. *)
Lemma run_rules_fail (p : Prefs) (rs : list Rule) (v : jsstring) (r : Rule) (c : Code) :
  In r rs -> check_rule p r v = Some c ->
  forall acc, run_rules p rs v acc <> [].
Proof.
  induction rs as [|r0 rs IH]; intros Hin Hc acc; [destruct Hin|]. simpl.
  destruct (check_rule p r0 v) as [c0|] eqn:E.
  - destruct (abortEarly p); [discriminate|].
    apply run_rules_keeps. destruct acc; discriminate.
  - destruct Hin as [->|Hin]; [congruence|]. apply IH; assumption.
Qed.

Lemma run_rules_pass (p : Prefs) (rs : list Rule) (v : jsstring) :
  (forall r, In r rs -> check_rule p r v = None) ->
  forall acc, run_rules p rs v acc = acc.
Proof.
  induction rs as [|r rs IH]; intros H acc; simpl; [reflexivity|].
  rewrite (H r (or_introl eq_refl)). apply IH. intros r' Hr'. apply H. right; assumption.
Qed.


Lemma string_codes_fail (p : Prefs) (s : StringSchema) (v : jsstring) (r : Rule) (c : Code) :
  In r (rules s) -> check_rule p r v = Some c -> string_codes p s v <> [].
Proof.
  intros Hin Hc. unfold string_codes.
  destruct v as [|x v].
  - destruct (min_limit s) as [[|n]|]; try discriminate.
    eapply run_rules_fail; eauto.
  - eapply run_rules_fail; eauto.
Qed.

Lemma string_codes_nonempty (p : Prefs) (s : StringSchema) (v : jsstring) :
  v <> [] -> string_codes p s v = run_rules p (rules s) v [].
Proof. destruct v; [contradiction|reflexivity]. Qed.

(** A rule that fails on the coerced value makes the schema reject. *)
Lemma failing_rule_rejects (p : Prefs) (s : StringSchema) (raw : jsstring)
  (r : Rule) (c : Code) :
  In r (rules s) -> check_rule p r (coerce p s raw) = Some c ->
  is_valid (validate p s raw) = false.
Proof.
  intros Hin Hc. unfold is_valid, validate, validate_string. simpl.
  pose proof (string_codes_fail p s _ r c Hin Hc) as Hne.
  destruct (string_codes p s (coerce p s raw)); [contradiction|reflexivity].
Qed.

Lemma codes_validate (p : Prefs) (s : StringSchema) (raw : jsstring) :
  codes (validate p s raw) = string_codes p s (coerce p s raw).
Proof.
  unfold codes, validate, validate_string. simpl. rewrite map_map. simpl.
  apply map_id.
Qed.

End RuleLoop.

Section EmailFieldFacts.
Import Joi ValidationService.

Variable customValidationMessage : Messages.
Variables EMAIL_MIN EMAIL_MAX : nat.
Variable isEmailValid : EmailOptions -> jsstring -> bool.

Let field := emailField customValidationMessage EMAIL_MIN EMAIL_MAX isEmailValid.

Lemma emailField_rules :
  rules field =
  [ RTrim; RMin EMAIL_MIN; RMax EMAIL_MAX;
    REmail (isEmailValid {| minDomainSegments := 2; tlds_allow := true |});
    RPattern (Some "no-temp-email"%string) Patterns.NO_TEMP_EMAIL;
    RPattern None Patterns.EMAIL ].
Proof. reflexivity. Qed.

(** The value the rules of the email field see. *)
Lemma emailField_coerce (p : Prefs) (raw : jsstring) :
  coerce p field raw = if convert p then trim raw else raw.
Proof. unfold coerce. destruct (convert p); reflexivity. Qed.

End EmailFieldFacts.

(* ===================================================================== *)
(** ** The email field *)
(* ===================================================================== *)

Section EmailFieldClaims.
Import Joi ValidationService.

Variable customValidationMessage : Messages.
Variables EMAIL_MIN EMAIL_MAX : nat.
Variable isEmailValid : EmailOptions -> jsstring -> bool.

Let field := emailField customValidationMessage EMAIL_MIN EMAIL_MAX isEmailValid.

Lemma coerced_contains (p : Prefs) (lit s : jsstring) :
  In lit [u16 "tempmail"; u16 "mailinator"; u16 "yopmail"] ->
  contains lit s -> contains lit (coerce p field s).
Proof.
  intros Hin Hc. unfold field. rewrite emailField_coerce.
  destruct (convert p); [|assumption].
  destruct Hin as [<-|[<-|[<-|[]]]].
  - apply (contains_trim (u16 "empmai") s (ch "t") (ch "l")); auto.
  - apply (contains_trim (u16 "ailinato") s (ch "m") (ch "r")); auto.
  - apply (contains_trim (u16 "opmai") s (ch "y") (ch "l")); auto.
Qed.

(** C5.  Whatever the validation preferences, the email field rejects every
    string in which [tempmail], [mailinator] or [yopmail] occurs somewhere as a
    case-sensitive substring, whether or not the rest of the string is a
    valid address. *)
Theorem emailField_rejects_provider_substring (p : Prefs) (s lit : jsstring) :
  In lit [u16 "tempmail"; u16 "mailinator"; u16 "yopmail"] ->
  contains lit s ->
  is_valid (validate p field s) = false.
Proof.
  intros Hin Hc.
  apply failing_rule_rejects
    with (r := RPattern (Some "no-temp-email"%string) Patterns.NO_TEMP_EMAIL)
         (c := string_pattern_name).
  - unfold field. rewrite emailField_rules. simpl. auto 6.
  - simpl. rewrite (no_temp_email_rejects lit); [reflexivity|assumption|].
    apply coerced_contains; assumption.
Qed.

Lemma coerced_temp_word (p : Prefs) (s : jsstring) :
  whole_word (u16 "temp") s -> whole_word (u16 "temp") (coerce p field s).
Proof.
  intros H. unfold field. rewrite emailField_coerce.
  destruct (convert p); [|assumption].
  apply (whole_word_trim (u16 "em") s (ch "t") (ch "p")); auto.
Qed.

(** C10.  Whatever the validation preferences, the email field rejects every
    string in which [temp] stands as a whole word: the lookahead that opens
    [patterns.EMAIL] makes the [.pattern(patterns.EMAIL)] rule fail. *)
Theorem emailField_rejects_temp_word (p : Prefs) (s : jsstring) :
  whole_word (u16 "temp") s ->
  Regex.test Patterns.EMAIL (coerce p field s) = false /\
  is_valid (validate p field s) = false.
Proof.
  intros H.
  assert (T : Regex.test Patterns.EMAIL (coerce p field s) = false).
  { apply email_rejects_temp_word. apply coerced_temp_word. assumption. }
  split; [exact T|].
  apply failing_rule_rejects
    with (r := RPattern None Patterns.EMAIL) (c := string_pattern_base).
  - unfold field. rewrite emailField_rules. simpl. auto 7.
  - simpl. rewrite T. reflexivity.
Qed.

End EmailFieldClaims.

Lemma emailField_rejects_provider_substring_witness :
  In (u16 "tempmail") [u16 "tempmail"; u16 "mailinator"; u16 "yopmail"] /\
  contains (u16 "tempmail") (u16 "user@tempmail.com") /\
  Joi.is_valid
    (Joi.validate Joi.defaults
       (ValidationService.emailField [] 5 100 Stub.any_address)
       (u16 "user@tempmail.com")) = false.
Proof.
  assert (H1 : In (u16 "tempmail") [u16 "tempmail"; u16 "mailinator"; u16 "yopmail"])
    by (left; reflexivity).
  assert (H2 : contains (u16 "tempmail") (u16 "user@tempmail.com"))
    by (exists (u16 "user@"), (u16 ".com"); reflexivity).
  split; [exact H1|]. split; [exact H2|].
  exact (emailField_rejects_provider_substring [] 5 100 Stub.any_address
           Joi.defaults (u16 "user@tempmail.com") (u16 "tempmail") H1 H2).
Defined.

(** What the default validation reports for the address of the statement:
    the named pattern failed, under the message the source gives to
    [string.pattern.name]. *)
Example emailField_provider_report :
  Joi.errors
    (Joi.validate Joi.defaults
       (ValidationService.emailField [] 5 100 Stub.any_address)
       (u16 "user@tempmail.com"))
  = [ {| Joi.code := Joi.string_pattern_name;
         Joi.key := None;
         Joi.template :=
           Some (ValidationService.dq ++ "email" ++ ValidationService.dq
                 ++ " must not be a temporary email address")%string |} ].
Proof. vm_compute. reflexivity. Qed.

Lemma emailField_rejects_temp_word_witness :
  whole_word (u16 "temp") (u16 "user@temp.mail.com") /\
  Joi.is_valid
    (Joi.validate Joi.defaults
       (ValidationService.emailField [] 5 100 Stub.any_address)
       (u16 "user@temp.mail.com")) = false.
Proof.
  assert (H : whole_word (u16 "temp") (u16 "user@temp.mail.com")).
  { exists (u16 "user@"), (u16 ".mail.com"). repeat split; reflexivity. }
  split; [exact H|].
  exact (proj2 (emailField_rejects_temp_word [] 5 100 Stub.any_address
                  Joi.defaults (u16 "user@temp.mail.com") H)).
Defined.

Section EmailFormatClaims.
Import Joi ValidationService.

Variable customValidationMessage : Messages.
Variables EMAIL_MIN EMAIL_MAX : nat.
Variable isEmailValid : EmailOptions -> jsstring -> bool.

Let field := emailField customValidationMessage EMAIL_MIN EMAIL_MAX isEmailValid.


Lemma coerced_is_trimmed (p : Prefs) (s : jsstring) :
  convert p = true \/ s = trim s ->
  coerce p field s = trim (coerce p field s).
Proof.
  intros H. unfold field. rewrite emailField_coerce.
  destruct (convert p).
  - symmetry. apply trim_idempotent.
  - destruct H as [H|H]; [discriminate|assumption].
Qed.

(** The empty string never reaches the rules of the field. *)
Lemma emailField_empty_string (p : Prefs) :
  0 < EMAIL_MIN -> codes (validate p field []) = [string_empty].
Proof.
  intros Hmin. rewrite codes_validate. unfold field. rewrite emailField_coerce.
  replace (if convert p then trim [] else []) with (@nil N)
    by (destruct (convert p); reflexivity).
  unfold string_codes, min_limit. simpl.
  destruct EMAIL_MIN; [lia|reflexivity].
Qed.


(** With [abortEarly] on, a value that is too long is reported as
    [string.max] and nothing else, malformed or not. *)
Lemma emailField_too_long_first (p : Prefs) (s : jsstring) :
  abortEarly p = true -> convert p = true \/ s = trim s ->
  EMAIL_MIN <= List.length (coerce p field s) ->
  EMAIL_MAX < List.length (coerce p field s) ->
  codes (validate p field s) = [string_max].
Proof.
  intros Hp Htrim Hlo Hhi. rewrite codes_validate.
  assert (Hv : coerce p field s <> []).
  { intros E. rewrite E in Hhi. simpl in Hhi. lia. }
  rewrite string_codes_nonempty by assumption.
  assert (Et : coerce p field s = trim (coerce p field s))
    by (apply coerced_is_trimmed; assumption).
  remember (coerce p field s) as v eqn:Ev.
  unfold field. rewrite emailField_rules. simpl.
  replace (if convert p then None
           else if jsstring_eqb v (trim v) then None else Some string_trim)
    with (@None Code).
  2:{ destruct (convert p); [reflexivity|].
      destruct (jsstring_eqb v (trim v)) eqn:Eq; [reflexivity|].
      apply jsstring_eqb_eq in Et. congruence. }
  destruct (Nat.leb_spec EMAIL_MIN (List.length v)); [|lia].
  destruct (Nat.leb_spec (List.length v) EMAIL_MAX); [lia|].
  rewrite Hp. reflexivity.
Qed.

End EmailFormatClaims.



(* ===================================================================== *)
(** ** The subject field *)
(* ===================================================================== *)

Section ShapeFacts.
Import Regex SendEmailSchema.

Let letter (c : N) : Prop := upper c = true \/ lower c = true.

Lemma letter_not_space (c : N) : letter c -> is_space c = false.
Proof. intros [H|H]; class_cases. Qed.

Lemma word_shape_span (z z' : pos) :
  matches word_shape z z' ->
  exists c w, after z = (c :: w) ++ after z' /\ Forall letter (c :: w).
Proof.
  intros (z0 & (c & rest & E & Hu & ->) & Hs).
  assert (HP : consumes_only (fun x => lower x = true) (Star (Chr lower)))
    by (simpl; auto).
  destruct (matches_span _ _ HP _ _ Hs) as (w & Ew & _ & F).
  unfold advance in Ew. simpl in Ew. exists c, w. split.
  - rewrite E, Ew. reflexivity.
  - constructor; [left; assumption|].
    eapply Forall_impl; [|exact F]. intros x Hx. right. exact Hx.
Qed.

Lemma letters_end (t : jsstring) :
  Forall letter t -> t <> [] -> exists u l, t = u ++ [l] /\ letter l.
Proof.
  intros F Hne. destruct (exists_last Hne) as (u & l & ->).
  exists u, l. split; [reflexivity|].
  apply Forall_app in F. destruct F as [_ F]. inversion F; assumption.
Qed.

(** What the repetition of [ Word] consumes is empty or ends in a letter. *)
Lemma more_words_span (z z' : pos) :
  star_rel (matches (Seq (Chr (one (ch " "))) word_shape)) z z' ->
  exists w, after z = w ++ after z' /\
            (w = [] \/ exists u l, w = u ++ [l] /\ letter l).
Proof.
  intros Hs; induction Hs as [z|z z1 z2 HR Hlt Hs IH].
  - exists []. auto.
  - destruct HR as (z0 & (c & rest & E & _ & ->) & Hw).
    destruct (word_shape_span _ _ Hw) as (c1 & w1 & Ew & F).
    unfold advance in Ew. simpl in Ew.
    destruct IH as (w2 & E2 & Hlast).
    exists (c :: (c1 :: w1) ++ w2). split.
    + rewrite E, Ew, E2. simpl. rewrite <- app_assoc. reflexivity.
    + right. destruct Hlast as [->|(u & l & -> & Hl)].
      * destruct (letters_end (c1 :: w1) F) as (u & l & Eu & Hl); [discriminate|].
        exists (c :: u), l. rewrite app_nil_r, Eu. auto.
      * exists (c :: (c1 :: w1) ++ u), l. split; [|assumption].
        simpl. rewrite <- app_assoc. reflexivity.
Qed.

(** A string of the Capitalized Words shape is not empty and carries no
    surrounding white space. *)
Lemma capitalized_words_trimmed (s : jsstring) :
  test capitalized_words s = true -> s <> [] /\ trim s = s.
Proof.
  intros T. unfold capitalized_words in T. apply test_anchored in T.
  destruct T as (z' & z1 & Hw & z2 & Hs & [-> Hend]).
  destruct (word_shape_span _ _ Hw) as (c & w & Ew & F). simpl in Ew.
  change (star_rel (matches (Seq (Chr (one (ch " "))) word_shape)) z1 z2) in Hs.
  destruct (more_words_span _ _ Hs) as (w2 & E2 & Hlast).
  rewrite Hend, app_nil_r in E2. rewrite E2 in Ew.
  split; [rewrite Ew; discriminate|].
  apply trim_fixed.
  - rewrite Ew. simpl. apply letter_not_space. inversion F; assumption.
  - assert (Hl : exists u l, s = u ++ [l] /\ letter l).
    { destruct Hlast as [->|(u & l & -> & Hl)].
      - rewrite app_nil_r in Ew. rewrite Ew. apply letters_end; [assumption|discriminate].
      - exists ((c :: w) ++ u), l. rewrite Ew, <- app_assoc. auto. }
    destruct Hl as (u & l & -> & Hl). rewrite rev_app_distr. simpl.
    apply letter_not_space. assumption.
Qed.

End ShapeFacts.

Section SubjectFieldClaims.
Import Joi SendEmailSchema.

Variable customValidationMessage : Messages.
Variables SUBJECT_MIN SUBJECT_MAX : nat.

Let field := subjectField customValidationMessage SUBJECT_MIN SUBJECT_MAX.

Lemma subjectField_rules :
  rules field = [RTrim; RMin SUBJECT_MIN; RMax SUBJECT_MAX].
Proof. reflexivity. Qed.

Lemma subjectField_coerce (p : Prefs) (raw : jsstring) :
  coerce p field raw = if convert p then trim raw else raw.
Proof. unfold coerce. destruct (convert p); reflexivity. Qed.

(** The shape the message speaks of is applied by no rule: the field has the
    trim, min and max rules only, and a value that fits them passes whatever
    its shape. *)
Lemma subjectField_ignores_shape (p : Prefs) (s : jsstring) :
  s <> [] -> trim s = s ->
  SUBJECT_MIN <= List.length s <= SUBJECT_MAX ->
  validate p field s = {| value := JString s; errors := [] |}.
Proof.
  intros Hne Ht [Hlo Hhi]. unfold validate, validate_string.
  rewrite subjectField_coerce.
  replace (if convert p then trim s else s) with s
    by (destruct (convert p); congruence).
  rewrite string_codes_nonempty by assumption.
  rewrite subjectField_rules. simpl. rewrite Ht.
  replace (jsstring_eqb s s) with true by (symmetry; apply jsstring_eqb_eq; reflexivity).
  destruct (Nat.leb_spec SUBJECT_MIN (List.length s)); [|lia].
  destruct (Nat.leb_spec (List.length s) SUBJECT_MAX); [|lia].
  destruct (convert p); reflexivity.
Qed.

Lemma subjectField_empty_string (p : Prefs) :
  0 < SUBJECT_MIN -> codes (validate p field []) = [string_empty].
Proof.
  intros Hmin. rewrite codes_validate, subjectField_coerce.
  replace (if convert p then trim [] else []) with (@nil N)
    by (destruct (convert p); reflexivity).
  unfold string_codes, min_limit. simpl.
  destruct SUBJECT_MIN; [lia|reflexivity].
Qed.

(** With conversion on, white space after a subject does not count: a
    subject within the bounds is accepted however long the padding makes it. *)
Lemma subjectField_accepts_padded (p : Prefs) (w pad : jsstring) :
  convert p = true -> w <> [] -> trim w = w ->
  Forall (fun c => is_space c = true) pad ->
  SUBJECT_MIN <= List.length w <= SUBJECT_MAX ->
  validate p field (w ++ pad) = {| value := JString w; errors := [] |}.
Proof.
  intros Hp Hne Ht Hpad [Hlo Hhi]. unfold validate, validate_string.
  rewrite subjectField_coerce, Hp, trim_padding by assumption.
  rewrite string_codes_nonempty by assumption.
  rewrite subjectField_rules. simpl. rewrite Hp.
  destruct (Nat.leb_spec SUBJECT_MIN (List.length w)); [|lia].
  destruct (Nat.leb_spec (List.length w) SUBJECT_MAX); [|lia].
  reflexivity.
Qed.

(** C6, as the code has it.  The subject field accepts [s] unchanged when
    its trimmed length is within the bounds and [s] has the Capitalized Words
    shape.  It reports length violations ([string.min], [string.max]) and
    nothing else when the value under validation ([s] trimmed when conversion
    is on, [s] itself otherwise) is not empty, carries no surrounding white
    space, and is shorter than the minimum or longer than the maximum. *)
Theorem subjectField_length_bounds (p : Prefs) (s : jsstring) :
  (Regex.test capitalized_words s = true ->
   SUBJECT_MIN <= List.length (trim s) <= SUBJECT_MAX ->
   validate p field s = {| value := JString s; errors := [] |}) /\
  (let v := coerce p field s in
   v <> [] ->
   convert p = true \/ s = trim s ->
   List.length v < SUBJECT_MIN \/ SUBJECT_MAX < List.length v ->
   codes (validate p field s) <> [] /\
   Forall length_violation (codes (validate p field s))).
Proof.
  split.
  - intros T Hlen. destruct (capitalized_words_trimmed s T) as [Hne Ht].
    rewrite Ht in Hlen. apply subjectField_ignores_shape; assumption.
  - intros v Hv Htrim Hlen. subst v. rewrite codes_validate.
    rewrite string_codes_nonempty by assumption.
    assert (Et : coerce p field s = trim (coerce p field s)).
    { rewrite subjectField_coerce. destruct (convert p).
      - symmetry. apply trim_idempotent.
      - destruct Htrim; [discriminate|assumption]. }
    remember (coerce p field s) as v eqn:Ev.
    rewrite subjectField_rules. simpl.
    replace (if convert p then None
             else if jsstring_eqb v (trim v) then None else Some string_trim)
      with (@None Code).
    2:{ destruct (convert p); [reflexivity|].
        destruct (jsstring_eqb v (trim v)) eqn:Eq; [reflexivity|].
        apply jsstring_eqb_eq in Et. congruence. }
    unfold length_violation.
    destruct (Nat.leb_spec SUBJECT_MIN (List.length v));
      destruct (Nat.leb_spec (List.length v) SUBJECT_MAX);
      destruct (abortEarly p); simpl; try lia;
      (split;
       [discriminate
       |repeat (apply Forall_cons; [first [left; reflexivity|right; reflexivity]|]);
        apply Forall_nil]).
Qed.

End SubjectFieldClaims.

Lemma subjectField_length_bounds_witness :
  Joi.validate Joi.defaults (SendEmailSchema.subjectField [] 3 100) (u16 "Weekly Update")
  = {| Joi.value := JString (u16 "Weekly Update"); Joi.errors := [] |} /\
  (Joi.codes (Joi.validate Joi.defaults (SendEmailSchema.subjectField [] 3 100) (u16 "Hi"))
   <> [] /\
   Forall length_violation
     (Joi.codes
        (Joi.validate Joi.defaults (SendEmailSchema.subjectField [] 3 100) (u16 "Hi")))).
Proof.
  pose proof (subjectField_length_bounds [] 3 100 Joi.defaults (u16 "Weekly Update"))
    as [A _].
  pose proof (subjectField_length_bounds [] 3 100 Joi.defaults (u16 "Hi")) as [_ B].
  split.
  - apply A; [reflexivity|simpl; lia].
  - apply B; [discriminate|left; reflexivity|left; simpl; lia].
Defined.

(** The empty string is shorter than any positive minimum and is reported
    as [string.empty]; a subject padded with white space beyond the maximum
    is accepted when conversion is on, and reported as [string.trim] when it
    is off. *)
Lemma subjectField_length_counterexample :
  (List.length (@nil N) < 3 /\
   Joi.codes (Joi.validate Joi.defaults (SendEmailSchema.subjectField [] 3 100) [])
   = [Joi.string_empty] /\
   ~ length_violation Joi.string_empty) /\
  (let padded := u16 "Weekly Update" ++ repeat 32%N 100 in
   100 < List.length padded /\
   Joi.is_valid
     (Joi.validate Joi.defaults (SendEmailSchema.subjectField [] 3 100) padded) = true /\
   Joi.codes
     (Joi.validate {| Joi.convert := false; Joi.abortEarly := true |}
        (SendEmailSchema.subjectField [] 3 100) padded)
   = [Joi.string_trim]).
Proof.
  split.
  - split; [simpl; lia|]. split; [reflexivity|].
    intros [E|E]; discriminate.
  - cbv zeta. split; [simpl; lia|]. split; vm_compute; reflexivity.
Qed.

(* ===================================================================== *)
(** ** The request schema *)
(* ===================================================================== *)

Section ObjectFacts.
Import Joi.



End ObjectFacts.

Section RequestSchemaClaims.
Import Joi ValidationService SendEmailSchema.
Local Open Scope string_scope.

Variable customValidationMessage : Messages.
Variables EMAIL_MIN EMAIL_MAX : nat.
Variable isEmailValid : EmailOptions -> jsstring -> bool.
Variables SUBJECT_MIN SUBJECT_MAX : nat.

Let schema :=
  SendEmailSchema.sendEmail customValidationMessage EMAIL_MIN EMAIL_MAX isEmailValid
    SUBJECT_MIN SUBJECT_MAX.


(** Both children are required, and conversion is off for the schema. *)
Lemma sendEmail_children_required :
  map (fun ks => required_flag (snd ks)) (keys schema) = [true; true] /\
  own_convert schema = Some false.
Proof. split; reflexivity. Qed.


End RequestSchemaClaims.


(** Without the extra key the same object passes, and the unknown key is
    what the schema reports. *)
Example sendEmail_schema_accepts_declared_keys :
  Joi.is_valid
    (Joi.validate_object Joi.defaults
       (SendEmailSchema.sendEmail [] 5 100 Stub.any_address 3 100)
       Stub.weekly_update) = true /\
  map Joi.code
    (Joi.errors
       (Joi.validate_object Joi.defaults
          (SendEmailSchema.sendEmail [] 5 100 Stub.any_address 3 100)
          (JObject [ ("subject", str "Weekly Update"); ("email", str "user@example.com");
                     ("extra", JNumber 1) ]%string)))
  = [Joi.object_unknown].
Proof. split; vm_compute; reflexivity. Qed.

(* ===================================================================== *)
(** ** The send-email use case *)
(* ===================================================================== *)

Section CompletionFacts.

Lemma bind_throw {A B} (c : Completion A) (k : A -> Completion B) (e : JsValue) :
  bind c k = Throw e -> c = Throw e \/ exists a, c = Normal a /\ k a = Throw e.
Proof.
  destruct c as [a|e']; simpl; intros H; [right; eauto|left].
  inversion H. reflexivity.
Qed.

Lemma bind_normal {A B} (c : Completion A) (k : A -> Completion B) (b : B) :
  bind c k = Normal b -> exists a, c = Normal a /\ k a = Normal b.
Proof. destruct c as [a|e']; simpl; intros H; [eauto|discriminate]. Qed.

Lemma get_throws_object (v : JsValue) (k : string) : throws_objects (get v k).
Proof.
  intros e H [E|E]; subst e; destruct v; simpl in H; discriminate.
Qed.

Lemma get_opt_throws_object (v : JsValue) (k : string) : throws_objects (get_opt v k).
Proof.
  destruct v; try apply get_throws_object; intros e H; discriminate.
Qed.

Lemma destructure_throws_object (v : JsValue) (k : string) :
  throws_objects (SendEmailService.destructure v k).
Proof.
  intros e H [E|E]; subst e; destruct v; simpl in H; discriminate.
Qed.

(** Reading [message] off a thrown object never throws. *)
Lemma get_of_object (e : JsValue) (k : string) :
  ~ nullish e -> exists m, get e k = Normal m.
Proof.
  intros H. destruct e; simpl; eauto; exfalso; apply H; [left|right]; reflexivity.
Qed.

End CompletionFacts.

Section UseCaseClaims.
Import SendEmailService.
Local Open Scope string_scope.

Variable prepareEmailContent : JsValue -> JsValue -> Completion JsValue.
Variable prepareEmail :
  JsValue -> JsValue -> JsValue -> JsValue -> JsValue -> Completion JsValue.
Variable EmailService_sendEmail : JsValue -> JsValue -> JsValue -> Completion JsValue.

Let arguments := transport_arguments prepareEmailContent prepareEmail.
Let try_body := attempt prepareEmailContent prepareEmail EmailService_sendEmail.
Let use_case := sendEmail prepareEmailContent prepareEmail EmailService_sendEmail.

Ltac step H :=
  apply bind_throw in H;
  destruct H as [H|(? & _ & H)];
  [ first [ eapply get_throws_object; exact H
          | eapply get_opt_throws_object; exact H
          | eapply destructure_throws_object; exact H
          | idtac ] | ].

Lemma transport_arguments_throw_object (emailData e : JsValue) :
  (forall a b, throws_objects (prepareEmailContent a b)) ->
  (forall a b c d f, throws_objects (prepareEmail a b c d f)) ->
  arguments emailData = Throw e -> ~ nullish e.
Proof.
  intros Hc Hr H. unfold arguments, transport_arguments in H.
  step H. step H; [eapply Hc; exact H|].
  step H. step H. step H. step H. step H. step H. step H.
  step H; [eapply Hr; exact H|]. discriminate.
Qed.

Lemma attempt_throw_object (emailData e : JsValue) :
  (forall a b, throws_objects (prepareEmailContent a b)) ->
  (forall a b c d f, throws_objects (prepareEmail a b c d f)) ->
  (forall a b c, throws_objects (EmailService_sendEmail a b c)) ->
  try_body emailData = Throw e -> ~ nullish e.
Proof.
  intros Hc Hr Ht H. unfold try_body, attempt in H.
  apply bind_throw in H. destruct H as [H|([[to subject] html] & _ & H)].
  - eapply transport_arguments_throw_object; eauto.
  - apply bind_throw in H. destruct H as [H|(? & _ & H)]; [|discriminate].
    eapply Ht; exact H.
Qed.

Lemma attempt_normal (emailData : JsValue) (env : Envelope.t) :
  try_body emailData = Normal env ->
  exists r, env = Envelope.sendResponse r (str "Email send successfully.")
                    Envelope.CREATED.
Proof.
  intros H. unfold try_body, attempt in H.
  apply bind_normal in H. destruct H as ([[to subject] html] & _ & H).
  apply bind_normal in H. destruct H as (r & _ & H).
  inversion H. eauto.
Qed.


(** C2.  When the arguments of the transport call evaluate and the call
    returns [result], the use case returns the envelope with status 201, the
    message [Email send successfully.] and [result] as its data. *)
Theorem sendEmail_success_envelope (emailData to subject html result : JsValue) :
  arguments emailData = Normal (to, subject, html) ->
  EmailService_sendEmail to subject html = Normal result ->
  use_case emailData =
  Normal {| Envelope.status := 201;
            Envelope.message := str "Email send successfully.";
            Envelope.route := None;
            Envelope.data := Some result |}.
Proof.
  intros Ha Ht. unfold use_case, sendEmail, attempt. fold arguments.
  rewrite Ha. simpl. rewrite Ht. reflexivity.
Qed.

(** C3.  When the arguments of the transport call evaluate and the call
    throws an error, the use case returns the envelope with status 500 and
    no data, whose message is the message of the error when that is not
    empty and [Failed to end email.] when it is. *)
Theorem sendEmail_failure_envelope (emailData to subject html : JsValue)
  (name : string) (msg : jsstring) :
  arguments emailData = Normal (to, subject, html) ->
  EmailService_sendEmail to subject html = Throw (JError name msg) ->
  use_case emailData =
  Normal {| Envelope.status := 500;
            Envelope.message := match msg with
                                | [] => str "Failed to end email."
                                | _ :: _ => JString msg
                                end;
            Envelope.route := None;
            Envelope.data := None |}.
Proof.
  intros Ha Ht. unfold use_case, sendEmail, attempt. fold arguments.
  rewrite Ha. simpl. rewrite Ht. simpl. destruct msg; reflexivity.
Qed.

(** The same holds for a thrown value that is no [Error]: what is read as
    its [message] decides. *)
Lemma sendEmail_failure_any_object (emailData to subject html e m : JsValue) :
  arguments emailData = Normal (to, subject, html) ->
  EmailService_sendEmail to subject html = Throw e ->
  get e "message" = Normal m ->
  use_case emailData =
  Normal (Envelope.errorResponse (js_or m (str "Failed to end email."))
            Envelope.INTERNAL_SERVER_ERROR).
Proof.
  intros Ha Ht Hm. unfold use_case, sendEmail, attempt. fold arguments.
  rewrite Ha. simpl. rewrite Ht. simpl. unfold recover. rewrite Hm. reflexivity.
Qed.

(** The failure is logged with the thrown value. *)
Lemma sendEmail_failure_logged (emailData to subject html e : JsValue) :
  arguments emailData = Normal (to, subject, html) ->
  EmailService_sendEmail to subject html = Throw e ->
  logged prepareEmailContent prepareEmail EmailService_sendEmail emailData
  = [LogError "Failed to end email: " e].
Proof.
  intros Ha Ht. unfold logged, attempt. fold arguments.
  rewrite Ha. simpl. rewrite Ht. reflexivity.
Qed.

(** What the proviso of C1 is for: a transport that throws [null] makes the
    [catch] block itself throw. *)
Lemma sendEmail_rethrows_on_null (emailData to subject html : JsValue) :
  arguments emailData = Normal (to, subject, html) ->
  EmailService_sendEmail to subject html = Throw JNull ->
  exists e, use_case emailData = Throw e.
Proof.
  intros Ha Ht. unfold use_case, sendEmail, attempt. fold arguments.
  rewrite Ha. simpl. rewrite Ht. simpl. eexists. reflexivity.
Qed.

End UseCaseClaims.


Lemma sendEmail_success_envelope_witness :
  SendEmailService.sendEmail Stub.prepareEmailContent Stub.prepareEmail
    Stub.transport_ok Stub.weekly_update
  = Normal {| Envelope.status := 201;
              Envelope.message := str "Email send successfully.";
              Envelope.route := None;
              Envelope.data := Some Stub.delivery |}.
Proof.
  apply (sendEmail_success_envelope Stub.prepareEmailContent Stub.prepareEmail
           Stub.transport_ok Stub.weekly_update
           (str "user@example.com") (str "Weekly Update") (str "<html></html>")
           Stub.delivery).
  - reflexivity.
  - reflexivity.
Defined.

Lemma sendEmail_failure_envelope_witness :
  SendEmailService.sendEmail Stub.prepareEmailContent Stub.prepareEmail
    Stub.transport_refused Stub.weekly_update
  = Normal {| Envelope.status := 500;
              Envelope.message := str "connection refused";
              Envelope.route := None;
              Envelope.data := None |}.
Proof.
  apply (sendEmail_failure_envelope Stub.prepareEmailContent Stub.prepareEmail
           Stub.transport_refused Stub.weekly_update
           (str "user@example.com") (str "Weekly Update") (str "<html></html>")
           "Error"%string (u16 "connection refused")).
  - reflexivity.
  - reflexivity.
Defined.

(** An empty request body: nothing is read off [undefined] before the
    address is, and the envelope carries the TypeError. *)
Example sendEmail_on_undefined :
  SendEmailService.sendEmail Stub.prepareEmailContent Stub.prepareEmail
    Stub.transport_ok JUndefined
  = Normal {| Envelope.status := 500;
              Envelope.message :=
                str "Cannot read properties of undefined (reading 'email')";
              Envelope.route := None;
              Envelope.data := None |}.
Proof. reflexivity. Qed.

(* ===================================================================== *)
(** ** The controller and the route *)
(* ===================================================================== *)

Section ControllerClaims.
Import Http.

Variable service_sendEmail : JsValue -> Completion Envelope.t.

(** C9.  Between the envelope the use case returns and the response, the
    controller changes the [route] field alone, which becomes the original URL
    of the request; [status], [message] and [data] are sent as they were
    built, and the status code of the response is the [status] of the
    envelope. *)
Theorem controller_sets_route_only (req : Request) (res : Response) (env : Envelope.t) :
  service_sendEmail (body req) = Normal env ->
  exists sent_env,
    outcome (SendEmailController.sendEmail service_sendEmail req res)
    = Responded {| statusCode := Envelope.status env;
                   sent := Some (EnvelopeBody sent_env) |} /\
    Envelope.route sent_env = Some (originalUrl req) /\
    Envelope.status sent_env = Envelope.status env /\
    Envelope.message sent_env = Envelope.message env /\
    Envelope.data sent_env = Envelope.data env.
Proof.
  intros H. exists (Envelope.set_route (originalUrl req) env).
  unfold SendEmailController.sendEmail. simpl. rewrite H.
  repeat split.
Qed.

End ControllerClaims.

Lemma controller_sets_route_only_witness :
  let req := {| Http.method := Http.POST;
                Http.originalUrl := u16 "/send-email";
                Http.body := Stub.weekly_update |} in
  exists sent_env,
    Http.outcome
      (SendEmailController.sendEmail
         (SendEmailService.sendEmail Stub.prepareEmailContent Stub.prepareEmail
            Stub.transport_ok) req Http.fresh)
    = Http.Responded {| Http.statusCode := 201;
                        Http.sent := Some (Http.EnvelopeBody sent_env) |} /\
    Envelope.route sent_env = Some (u16 "/send-email") /\
    Envelope.status sent_env = 201 /\
    Envelope.message sent_env = str "Email send successfully." /\
    Envelope.data sent_env = Some Stub.delivery.
Proof.
  cbv zeta.
  exact (controller_sets_route_only
           (SendEmailService.sendEmail Stub.prepareEmailContent Stub.prepareEmail
              Stub.transport_ok)
           {| Http.method := Http.POST;
              Http.originalUrl := u16 "/send-email";
              Http.body := Stub.weekly_update |}
           Http.fresh
           {| Envelope.status := 201;
              Envelope.message := str "Email send successfully.";
              Envelope.route := None;
              Envelope.data := Some Stub.delivery |}
           eq_refl).
Defined.

Section DispatchFacts.
Import Http.

(** A layer that applies and does not call [next] answers the request. *)
Lemma dispatch_first (l : Layer) (rest : list Layer) (req : Request) (res : Response) :
  applies l req = true -> outcome (snd l req res) <> CallNext ->
  dispatch (l :: rest) req res = snd l req res.
Proof.
  intros Ha Hn. cbn [dispatch]. rewrite Ha.
  destruct (outcome (snd l req res)) eqn:E; try reflexivity.
  exfalso. apply Hn. reflexivity.
Qed.

End DispatchFacts.

Section RouteClaims.
Import Http.

Variable customValidationMessage : Joi.Messages.
Variables EMAIL_MIN EMAIL_MAX : nat.
Variable isEmailValid : ValidationService.EmailOptions -> jsstring -> bool.
Variables SUBJECT_MIN SUBJECT_MAX : nat.
Variable validationStatus : nat.
Variable prepareEmailContent : JsValue -> JsValue -> Completion JsValue.
Variable prepareEmail :
  JsValue -> JsValue -> JsValue -> JsValue -> JsValue -> Completion JsValue.
Variable EmailService_sendEmail : JsValue -> JsValue -> JsValue -> Completion JsValue.
Variable methodNotSupported : Handler.

Let schema :=
  SendEmailSchema.sendEmail customValidationMessage EMAIL_MIN EMAIL_MAX isEmailValid
    SUBJECT_MIN SUBJECT_MAX.
Let use_case :=
  SendEmailService.sendEmail prepareEmailContent prepareEmail EmailService_sendEmail.
Let controller := SendEmailController.sendEmail use_case.
Let validator := SendEmailValidator.sendEmail schema validationStatus.
Let mounted := SendEmailRoutes.router controller methodNotSupported.
Let restored :=
  SendEmailRoutes.router_with_validator controller validator methodNotSupported.

Lemma controller_never_calls_next (req : Request) (res : Response) :
  outcome (controller req res) <> CallNext.
Proof.
  unfold controller, SendEmailController.sendEmail. simpl.
  destruct (use_case (body req)); discriminate.
Qed.

(** C4, as the code has it.  The route mounts the controller alone for POST
    (the validator argument is commented out), so every POST body, whether or
    not it fits the schema, is handed to the use case and answered by the
    controller.  With the validator mounted ahead of the controller, a body
    that violates the schema is answered with the validator's 4xx response
    that lists the violations, and the use case is not invoked. *)
Theorem post_route_skips_validation (req : Request) (res : Response) :
  method req = POST ->
  (dispatch mounted req res = controller req res /\
   invoked (dispatch mounted req res) (body req)) /\
  (Joi.is_valid
     (Joi.validate_object SendEmailValidator.collect_all schema (body req)) = false ->
   400 <= validationStatus < 500 ->
   trace (dispatch restored req res) = [] /\
   exists r details,
     outcome (dispatch restored req res) = Responded r /\
     400 <= statusCode r < 500 /\
     sent r = Some (ValidationBody details) /\ details <> []).
Proof.
  intros Hm. split.
  - assert (E : dispatch mounted req res = controller req res).
    { unfold mounted, SendEmailRoutes.router.
      apply (dispatch_first (Some POST, controller)).
      - unfold applies. simpl. rewrite Hm. reflexivity.
      - apply controller_never_calls_next. }
    split; [exact E|]. rewrite E. left. reflexivity.
  - intros Hbad Hst.
    assert (Ev : validator req res =
                 {| trace := [];
                    outcome :=
                      Responded
                        (res |> res_status validationStatus
                             |> res_send
                                  (ValidationBody
                                     (Joi.errors
                                        (Joi.validate_object
                                           SendEmailValidator.collect_all schema
                                           (body req))))) |}).
    { unfold validator, SendEmailValidator.sendEmail,
        SendEmailValidator.validateWithSchema. rewrite Hbad. reflexivity. }
    assert (E : dispatch restored req res = validator req res).
    { unfold restored, SendEmailRoutes.router_with_validator.
      apply (dispatch_first (Some POST, validator)).
      - unfold applies. simpl. rewrite Hm. reflexivity.
      - cbn [snd]. rewrite Ev. discriminate. }
    rewrite E, Ev. simpl. split; [reflexivity|].
    eexists. eexists. split; [reflexivity|]. simpl. split; [exact Hst|].
    split; [reflexivity|].
    unfold Joi.is_valid in Hbad.
    destruct (Joi.errors
                (Joi.validate_object SendEmailValidator.collect_all schema (body req)));
      discriminate.
Qed.

End RouteClaims.

Lemma post_route_skips_validation_witness :
  let req := {| Http.method := Http.POST;
                Http.originalUrl := u16 "/send-email";
                Http.body := JObject [] |} in
  let controller :=
    SendEmailController.sendEmail
      (SendEmailService.sendEmail Stub.prepareEmailContent Stub.prepareEmail
         Stub.transport_ok) in
  let validator :=
    SendEmailValidator.sendEmail
      (SendEmailSchema.sendEmail [] 5 100 Stub.any_address 3 100) 400 in
  Http.invoked
    (Http.dispatch (SendEmailRoutes.router controller Stub.not_supported) req Http.fresh)
    (JObject []) /\
  Http.trace
    (Http.dispatch
       (SendEmailRoutes.router_with_validator controller validator Stub.not_supported)
       req Http.fresh) = [].
Proof.
  cbv zeta.
  pose proof (post_route_skips_validation [] 5 100 Stub.any_address 3 100 400
                Stub.prepareEmailContent Stub.prepareEmail Stub.transport_ok
                Stub.not_supported
                {| Http.method := Http.POST;
                   Http.originalUrl := u16 "/send-email";
                   Http.body := JObject [] |}
                Http.fresh eq_refl) as [[_ A] B].
  split.
  - exact A.
  - apply B; [reflexivity|lia].
Defined.

(** A POST with an empty object as its body: the body violates the schema,
    yet it reaches the use case and, with a transport that accepts it, is
    answered with 201. *)
Lemma post_route_invalid_body_counterexample :
  let req := {| Http.method := Http.POST;
                Http.originalUrl := u16 "/send-email";
                Http.body := JObject [] |} in
  let st :=
    Http.dispatch
      (SendEmailRoutes.router
         (SendEmailController.sendEmail
            (SendEmailService.sendEmail Stub.prepareEmailContent Stub.prepareEmail
               Stub.transport_ok))
         Stub.not_supported)
      req Http.fresh in
  Joi.is_valid
    (Joi.validate_object SendEmailValidator.collect_all
       (SendEmailSchema.sendEmail [] 5 100 Stub.any_address 3 100)
       (Http.body req)) = false /\
  Http.invoked st (Http.body req) /\
  exists r, Http.outcome st = Http.Responded r /\ Http.statusCode r = 201.
Proof.
  cbv zeta. split; [reflexivity|]. split.
  - left. reflexivity.
  - eexists. split; reflexivity.
Qed.

(* ===================================================================== *)
(** ** More about the patterns *)
(* ===================================================================== *)

Section SpanFacts.
Import Regex.

Lemma matches_Lit_inv (a : jsstring) : forall z z',
  matches (Lit a) z z' -> after z = a ++ after z' /\ before z' = rev a ++ before z.
Proof.
  induction a as [|c a IH]; intros z z' H; simpl in H.
  - subst. auto.
  - destruct H as (z1 & (c' & rest & E & Hc & ->) & H).
    unfold one in Hc. apply N.eqb_eq in Hc. subst c'.
    apply IH in H. destruct H as [Ea Eb]. unfold advance in *. simpl in *.
    split.
    + rewrite E, Ea. reflexivity.
    + rewrite Eb, <- app_assoc. reflexivity.
Qed.

Lemma spans_eps : spans Eps [].
Proof. intros b rest. reflexivity. Qed.

Lemma spans_chr (p : N -> bool) (c : N) : p c = true -> spans (Chr p) [c].
Proof. intros H b rest. simpl. exists c, rest. auto. Qed.

Lemma spans_seq (a c : re) (w1 w2 : jsstring) :
  spans a w1 -> spans c w2 -> spans (Seq a c) (w1 ++ w2).
Proof.
  intros Ha Hc b rest. simpl. exists (Pos (rev w1 ++ b) (w2 ++ rest)). split.
  - rewrite <- app_assoc. apply Ha.
  - rewrite rev_app_distr, <- app_assoc. apply Hc.
Qed.

Lemma spans_alt_l (a c : re) (w : jsstring) : spans a w -> spans (Alt a c) w.
Proof. intros H b rest. left. apply H. Qed.

Lemma spans_alt_r (a c : re) (w : jsstring) : spans c w -> spans (Alt a c) w.
Proof. intros H b rest. right. apply H. Qed.

Lemma spans_star_nil (a : re) : spans (Star a) [].
Proof. intros b rest. simpl. constructor. Qed.

Lemma spans_star_cons (a : re) (w1 w2 : jsstring) :
  spans a w1 -> w1 <> [] -> spans (Star a) w2 -> spans (Star a) (w1 ++ w2).
Proof.
  intros Ha Hne Hs b rest. simpl.
  apply star_more with (z1 := Pos (rev w1 ++ b) (w2 ++ rest)).
  - rewrite <- app_assoc. apply Ha.
  - simpl. rewrite <- app_assoc, !length_app.
    destruct w1; [contradiction|]. simpl. lia.
  - rewrite rev_app_distr, <- app_assoc. apply Hs.
Qed.

Lemma spans_star_units (p : N -> bool) (w : jsstring) :
  all_units p w -> spans (Star (Chr p)) w.
Proof.
  induction 1 as [|c w Hc _ IH].
  - apply spans_star_nil.
  - apply (spans_star_cons (Chr p) [c] w); [apply spans_chr; assumption|discriminate|exact IH].
Qed.

Lemma spans_plus_units (p : N -> bool) (w : jsstring) :
  all_units p w -> w <> [] -> spans (Plus (Chr p)) w.
Proof.
  intros H Hne. destruct w as [|c w]; [contradiction|].
  inversion H; subst.
  apply (spans_seq (Chr p) (Star (Chr p)) [c] w).
  - apply spans_chr; assumption.
  - apply spans_star_units; assumption.
Qed.

Lemma spans_lit (a : jsstring) : spans (Lit a) a.
Proof. intros b rest. apply matches_Lit. Qed.

(** A pattern that spans the whole subject and then meets [$] matches it. *)
Lemma spans_test (r : re) (v : jsstring) :
  spans r v -> test (Seq Bol (Seq r Eol)) v = true.
Proof.
  intros H. apply test_anchored. exists (Pos (rev v ++ []) []).
  simpl. exists (Pos (rev v ++ []) []). split; [|auto].
  specialize (H [] []). rewrite app_nil_r in H. exact H.
Qed.

End SpanFacts.

Section DenyPattern.
Import Regex.

Lemma providers_inv (z zz : pos) :
  matches providers z zz ->
  exists lit, In lit provider_names /\ after z = lit ++ after zz.
Proof.
  unfold providers, provider_names. intros [H|[H|H]];
    apply matches_Lit_inv in H; destruct H as [E _]; eexists; (split; [|exact E]);
    simpl; auto.
Qed.

(** The deny pattern runs to the end of a subject that has no line
    terminator and in which no provider name starts anywhere. *)
Lemma deny_body_spans (suffix : jsstring) : forall b,
  Forall not_line_terminator suffix ->
  (forall pre post, suffix = pre ++ post ->
     forall zz, ~ matches providers (Pos (rev pre ++ b) post) zz) ->
  matches (Star (Seq (NegLook providers) Dot)) (Pos b suffix) (Pos (rev suffix ++ b) []).
Proof.
  induction suffix as [|c rest IH]; intros b HF Hno; simpl.
  - constructor.
  - inversion HF as [|? ? Hc HF']; subst.
    apply star_more with (z1 := Pos (c :: b) rest).
    + exists (Pos b (c :: rest)). split.
      * split; [reflexivity|]. apply (Hno [] (c :: rest) eq_refl).
      * exists c, rest. unfold advance. simpl.
        unfold not_line_terminator in Hc. rewrite Hc. auto.
    + simpl. lia.
    + rewrite <- app_assoc. simpl. apply IH; [assumption|].
      intros pre post E zz. specialize (Hno (c :: pre) post).
      simpl in Hno. rewrite <- app_assoc in Hno. simpl in Hno.
      apply Hno. rewrite E. reflexivity.
Qed.

Lemma deny_pattern_iff (v : jsstring) :
  test NO_TEMP_EMAIL v = true <->
  Forall not_line_terminator v /\
  forall lit, In lit provider_names -> ~ contains lit v.
Proof.
  split.
  - intros T. split.
    + unfold NO_TEMP_EMAIL in T. apply test_anchored in T. destruct T as (z' & Hm).
      assert (HP : consumes_only not_line_terminator
                     (Seq (Star (Seq (NegLook providers) Dot)) Eol)).
      { simpl. repeat split. intros c Hc. apply dot_not_lt. exact Hc. }
      destruct (matches_span _ _ HP _ _ Hm) as (w & E & _ & F).
      destruct Hm as (z1 & _ & [-> Hend]). simpl in E.
      rewrite Hend, app_nil_r in E. subst w. exact F.
    + intros lit Hin Hc. rewrite (no_temp_email_rejects lit v Hin Hc) in T.
      discriminate.
  - intros [HF Hno]. unfold NO_TEMP_EMAIL. apply test_anchored.
    exists (Pos (rev v ++ []) []). simpl.
    exists (Pos (rev v ++ []) []). split; [|auto].
    apply deny_body_spans; [assumption|].
    intros pre post E zz Hm. apply providers_inv in Hm.
    destruct Hm as (lit & Hin & Ea). simpl in Ea.
    apply (Hno lit Hin). exists pre, (after zz). rewrite E, Ea. reflexivity.
Qed.

(** X1.  The deny pattern of the email field passes exactly the strings
    that hold no line terminator and none of the three provider names. *)
Theorem NO_TEMP_EMAIL_passes_iff (v : jsstring) :
  test NO_TEMP_EMAIL v = true <->
  Forall not_line_terminator v /\
  forall lit, In lit provider_names -> ~ contains lit v.
Proof. exact (deny_pattern_iff v). Qed.

End DenyPattern.

(** A line feed inside an address makes the deny pattern fail, although no
    provider is named. *)
Example deny_pattern_line_feed :
  Regex.test Patterns.NO_TEMP_EMAIL (u16 "user" ++ 10%N :: u16 "@example.com") = false.
Proof. vm_compute. reflexivity. Qed.

Section EmailPattern.
Import Regex.

(** The lookahead of [patterns.EMAIL] finds nothing but whole words. *)
Lemma temp_word_inv (v : jsstring) (zz : pos) :
  matches temp_word (Pos [] v) zz -> whole_word (u16 "temp") v.
Proof.
  intros (z1 & Hs & z2 & [E1 Hb1] & z3 & Hl & [E2 Hb2]).
  subst z2. subst z3.
  destruct (matches_extent _ _ _ Hs) as (w & Ew & Bw). simpl in Ew, Bw.
  apply matches_Lit_inv in Hl. destruct Hl as [El Bl].
  exists w, (after zz). split; [rewrite Ew, El; reflexivity|].
  unfold word_before, word_after in Hb1, Hb2.
  rewrite El in Hb1. rewrite Bl in Hb2. simpl in Hb1, Hb2.
  rewrite Bw, app_nil_r in Hb1.
  unfold ends_in_word, starts_with_word. split.
  - destruct (rev w) as [|c t]; [reflexivity|].
    destruct (is_word c); [discriminate|reflexivity].
  - destruct (after zz) as [|c t]; [reflexivity|].
    destruct (is_word c); [discriminate|reflexivity].
Qed.

Lemma email_shape_iff (v : jsstring) :
  test EMAIL v = true <->
  test EMAIL_SHAPE v = true /\ ~ whole_word (u16 "temp") v.
Proof.
  unfold EMAIL_SHAPE. rewrite email_unfold, test_anchored. split.
  - intros [Hno Hm]. split; [exact Hm|].
    intros Hw. pose proof (email_rejects_temp_word v Hw) as T.
    assert (T' : test EMAIL v = true) by (apply email_unfold; auto).
    congruence.
  - intros [Hm Hw]. split; [|exact Hm].
    intros zz Hz. apply Hw. eapply temp_word_inv; eauto.
Qed.

(** X2.  [patterns.EMAIL] matches exactly the strings that match its
    address shape and in which [temp] does not stand as a whole word: the
    lookahead takes away those strings and no others. *)
Theorem EMAIL_is_shape_without_temp (v : jsstring) :
  test EMAIL v = true <->
  test EMAIL_SHAPE v = true /\ ~ whole_word (u16 "temp") v.
Proof. exact (email_shape_iff v). Qed.

End EmailPattern.

Section EmailShape.
Import Regex.

(** The units an unquoted address is made of: no white space, no at sign. *)
Let plain (c : N) : Prop := is_space c = false /\ c <> ch "@".

Lemma atom_char_plain (c : N) : atom_char c = true -> plain c.
Proof. intros H. split; class_cases. Qed.

Lemma host_char_plain (c : N) : host_char c = true -> plain c.
Proof. intros H. split; class_cases. Qed.

Lemma alpha_plain (c : N) : alpha c = true -> plain c.
Proof. intros H. split; class_cases. Qed.

Lemma digit_plain (c : N) : digit c = true -> plain c.
Proof. intros H. split; class_cases. Qed.

Lemma literal_plain (x c : N) :
  is_space x = false -> x <> ch "@" -> one x c = true -> plain c.
Proof.
  intros Hs Ha H. unfold one in H. apply N.eqb_eq in H. subst c. split; assumption.
Qed.

Lemma unquoted_local_units :
  consumes_only plain
    (Seq (Plus (Chr atom_char)) (Star (Seq (c_ ".") (Plus (Chr atom_char))))).
Proof.
  cbn. unfold c_. repeat match goal with |- _ /\ _ => split end;
    try exact I; intros c H;
    first [ apply atom_char_plain; assumption
          | eapply literal_plain; [| |eassumption]; [reflexivity|discriminate] ].
Qed.

Lemma domain_part_units : consumes_only plain domain_part.
Proof.
  cbn. unfold c_. repeat match goal with |- _ /\ _ => split end;
    try exact I; intros c H;
    first [ apply host_char_plain; assumption
          | apply alpha_plain; assumption
          | apply digit_plain; assumption
          | eapply literal_plain; [| |eassumption]; [reflexivity|discriminate] ].
Qed.

(** X3.  An address that [patterns.EMAIL] matches and that does not begin
    with a double quote has one at sign, and no white space anywhere. *)
Theorem EMAIL_unquoted_has_one_at (v : jsstring) :
  test EMAIL v = true ->
  match v with c :: _ => c <> quote | [] => True end ->
  exists local domain,
    v = local ++ ch "@" :: domain /\
    Forall (fun c => is_space c = false /\ c <> ch "@") (local ++ domain).
Proof.
  intros T Hq. apply email_unfold in T. destruct T as (_ & z' & Hm).
  destruct Hm as (z1 & Hl & z2 & (c & rest & Ec & Hc & ->) & z3 & Hd & [-> Hend]).
  unfold one in Hc. apply N.eqb_eq in Hc. subst c.
  destruct Hl as [Hl|Hl].
  - destruct (matches_span _ _ unquoted_local_units _ _ Hl) as (w1 & E1 & _ & F1).
    destruct (matches_span _ _ domain_part_units _ _ Hd) as (w2 & E2 & _ & F2).
    unfold advance in E2. simpl in E1, E2. rewrite Hend, app_nil_r in E2.
    exists w1, w2. split.
    + rewrite E1, Ec, E2. reflexivity.
    + apply Forall_app. split; assumption.
  - exfalso. destruct Hl as (z0 & (c & r & E & Hc & _) & _). simpl in E.
    unfold one in Hc. apply N.eqb_eq in Hc. subst c. rewrite E in Hq.
    apply Hq. reflexivity.
Qed.

Ltac peel H :=
  let z := fresh "z" in let Ha := fresh "Ha" in
  let w := fresh "w" in let E := fresh "E" in
  destruct H as (z & Ha & H);
  apply matches_extent in Ha; destruct Ha as (w & E & _).

Lemma ip_literal_last (z z' : pos) :
  matches ip_literal z z' -> exists u, after z = u ++ ch "]" :: after z'.
Proof.
  intros H. unfold ip_literal in H.
  peel H. peel H. peel H. peel H. peel H. peel H. peel H. peel H.
  destruct H as (c & rest & Ec & Hc & ->).
  unfold one in Hc. apply N.eqb_eq in Hc. subst c. simpl.
  exists (w ++ w0 ++ w1 ++ w2 ++ w3 ++ w4 ++ w5 ++ w6).
  rewrite E, E0, E1, E2, E3, E4, E5, E6, Ec, <- !app_assoc. reflexivity.
Qed.

Lemma host_name_last (z z' : pos) :
  matches host_name z z' ->
  exists u t, after z = u ++ t ++ after z' /\
              2 <= List.length t /\ all_units alpha t.
Proof.
  intros H. unfold host_name, AtLeast in H. peel H.
  destruct H as (z1 & Ht & Hs). simpl in Ht.
  destruct Ht as (za & (c1 & r1 & E1 & H1 & ->) & zb & (c2 & r2 & E2 & H2 & ->) & ->).
  assert (HP : consumes_only (fun c => alpha c = true) (Star (Chr alpha)))
    by (simpl; auto).
  destruct (matches_span _ _ HP _ _ Hs) as (t & Et & _ & Ft).
  unfold advance in *. simpl in *.
  exists w, (c1 :: c2 :: t). split.
  - rewrite E, E1, E2, Et. reflexivity.
  - split; [simpl; lia|]. repeat constructor; assumption.
Qed.

(** X4.  An address that [patterns.EMAIL] matches ends in a closing bracket
    (the bracketed numeric form) or in a run of at least two ASCII letters:
    a top-level domain of one letter, or with a digit, is refused. *)
Theorem EMAIL_top_level_domain (v : jsstring) :
  test EMAIL v = true ->
  (exists u, v = u ++ [ch "]"]) \/
  (exists u t, v = u ++ t /\ 2 <= List.length t /\ all_units alpha t).
Proof.
  intros T. apply email_unfold in T. destruct T as (_ & z' & Hm).
  destruct Hm as (z1 & Hl & z2 & (c & rest & Ec & _ & ->) & z3 & Hd & [-> Hend]).
  apply matches_extent in Hl. destruct Hl as (w1 & E1 & _). simpl in E1.
  unfold advance in Hd. destruct Hd as [Hd|Hd].
  - left. apply ip_literal_last in Hd. destruct Hd as (u & Eu). simpl in Eu.
    rewrite Hend in Eu. exists (w1 ++ c :: u).
    rewrite E1, Ec, Eu, <- app_assoc. reflexivity.
  - right. apply host_name_last in Hd. destruct Hd as (u & t & Eu & Hlen & Ht).
    simpl in Eu. rewrite Hend, app_nil_r in Eu.
    exists (w1 ++ c :: u), t. split; [|auto].
    rewrite E1, Ec, Eu, <- app_assoc. reflexivity.
Qed.

End EmailShape.

Section PlainAddresses.
Import Regex.

Lemma join_dots_cons (x : jsstring) (rest : list jsstring) :
  join_dots (x :: rest) = x ++ List.concat (map (fun y => ch "." :: y) rest).
Proof.
  revert x. induction rest as [|y rest IH]; intros x.
  - simpl. rewrite app_nil_r. reflexivity.
  - change (join_dots (x :: y :: rest)) with (x ++ ch "." :: join_dots (y :: rest)).
    rewrite IH. reflexivity.
Qed.

Lemma spans_more_atoms (rest : list jsstring) :
  Forall (fun l => l <> [] /\ all_units atom_char l) rest ->
  spans (Star (Seq (c_ ".") (Plus (Chr atom_char))))
        (List.concat (map (fun y => ch "." :: y) rest)).
Proof.
  induction 1 as [|y rest [Hne Hy] _ IH]; simpl.
  - apply spans_star_nil.
  - apply (spans_star_cons _ (ch "." :: y)); [|discriminate|exact IH].
    apply (spans_seq (c_ ".") (Plus (Chr atom_char)) [ch "."] y).
    + apply spans_chr. reflexivity.
    + apply spans_plus_units; assumption.
Qed.

Lemma spans_local_part (locals : list jsstring) :
  locals <> [] ->
  Forall (fun l => l <> [] /\ all_units atom_char l) locals ->
  spans local_part (join_dots locals).
Proof.
  intros Hne HF. destruct locals as [|x rest]; [contradiction|].
  inversion HF as [|? ? [Hx Hu] HF']; subst.
  rewrite join_dots_cons. apply spans_alt_l. apply spans_seq.
  - apply spans_plus_units; assumption.
  - apply spans_more_atoms. assumption.
Qed.

Lemma spans_label (l : jsstring) :
  l <> [] -> all_units host_char l ->
  spans (Seq (Plus (Chr host_char)) (c_ ".")) (l ++ [ch "."]).
Proof.
  intros Hne Hl. apply spans_seq.
  - apply spans_plus_units; assumption.
  - apply spans_chr. reflexivity.
Qed.

Lemma spans_more_labels (labels : list jsstring) :
  Forall (fun l => l <> [] /\ all_units host_char l) labels ->
  spans (Star (Seq (Plus (Chr host_char)) (c_ "."))) (dotted labels).
Proof.
  induction 1 as [|l labels [Hne Hl] _ IH]; unfold dotted; simpl.
  - apply spans_star_nil.
  - apply spans_star_cons; [apply spans_label; assumption| |exact IH].
    destruct l; discriminate.
Qed.

Lemma spans_host_name (labels : list jsstring) (tld : jsstring) :
  labels <> [] ->
  Forall (fun l => l <> [] /\ all_units host_char l) labels ->
  all_units alpha tld -> 2 <= List.length tld ->
  spans host_name (dotted labels ++ tld).
Proof.
  intros Hne HF Ht Hlen. destruct labels as [|l labels]; [contradiction|].
  inversion HF as [|? ? [Hl Hu] HF']; subst.
  destruct tld as [|a [|b t]]; simpl in Hlen; try lia.
  inversion Ht as [|? ? Ha Ht']; subst. inversion Ht' as [|? ? Hb Ht'']; subst.
  unfold host_name. apply spans_seq.
  - unfold Plus, dotted. simpl. apply spans_seq.
    + apply spans_label; assumption.
    + apply spans_more_labels. assumption.
  - unfold AtLeast. apply (spans_seq _ _ [a; b] t).
    + simpl. apply (spans_seq _ _ [a] [b]); [apply spans_chr; assumption|].
      apply (spans_seq _ _ [b] []); [apply spans_chr; assumption|apply spans_eps].
    + apply spans_star_units. assumption.
Qed.

(** X5.  [patterns.EMAIL] matches every address made of non-empty runs of
    local-part units separated by full stops, an at sign, one or more
    non-empty labels of letters, digits and hyphens each followed by a full
    stop, and a top-level domain of at least two ASCII letters, provided
    [temp] does not stand in it as a whole word. *)
Theorem EMAIL_matches_plain_address (locals labels : list jsstring) (tld : jsstring) :
  locals <> [] ->
  Forall (fun l => l <> [] /\ all_units atom_char l) locals ->
  labels <> [] ->
  Forall (fun l => l <> [] /\ all_units host_char l) labels ->
  all_units alpha tld -> 2 <= List.length tld ->
  ~ whole_word (u16 "temp") (plain_address locals labels tld) ->
  test EMAIL (plain_address locals labels tld) = true.
Proof.
  intros Hl HFl Hd HFd Ht Hlen Hw.
  apply email_shape_iff. split; [|exact Hw].
  unfold EMAIL_SHAPE. apply test_anchored. unfold plain_address, email_body.
  pose proof (spans_local_part locals Hl HFl [] (ch "@" :: dotted labels ++ tld)) as H1.
  pose proof (spans_host_name labels tld Hd HFd Ht Hlen
                (ch "@" :: rev (join_dots locals) ++ []) []) as H2.
  rewrite app_nil_r in H1. rewrite app_nil_r in H2.
  rewrite (app_nil_r (dotted labels ++ tld)) in H2.
  eexists. simpl. eexists. split; [exact H1|].
  eexists. split.
  - exists (ch "@"), (dotted labels ++ tld). simpl. repeat split.
  - unfold advance. simpl. eexists. split; [right; exact H2|]. split; reflexivity.
Qed.

End PlainAddresses.

Lemma EMAIL_matches_plain_address_witness :
  Regex.test Patterns.EMAIL (u16 "user.name@sub.domain.com") = true.
Proof.
  apply (EMAIL_matches_plain_address [u16 "user"; u16 "name"] [u16 "sub"; u16 "domain"]
           (u16 "com")).
  - discriminate.
  - repeat constructor; try discriminate.
  - discriminate.
  - repeat constructor; try discriminate.
  - repeat constructor.
  - simpl. lia.
  - intros T. apply email_rejects_temp_word in T. vm_compute in T. discriminate.
Defined.

(* ===================================================================== *)
(** ** More about the field validators *)
(* ===================================================================== *)

Section ValidityFacts.
Import Joi.

Lemma run_rules_nil_iff (p : Prefs) (rs : list Rule) (v : jsstring) :
  run_rules p rs v [] = [] <-> forall r, In r rs -> check_rule p r v = None.
Proof.
  split.
  - intros H r Hin. destruct (check_rule p r v) as [c|] eqn:E; [|reflexivity].
    exfalso. exact (run_rules_fail p rs v r c Hin E [] H).
  - intros H. apply run_rules_pass. exact H.
Qed.

(** A string schema accepts a value exactly when the base check and every
    rule pass on the coerced value, whatever [abortEarly] is. *)
Lemma is_valid_iff (p : Prefs) (s : StringSchema) (raw : jsstring) :
  is_valid (validate p s raw) = true <->
  (coerce p s raw = [] -> min_limit s = Some 0) /\
  forall r, In r (rules s) -> check_rule p r (coerce p s raw) = None.
Proof.
  unfold is_valid, validate, validate_string. simpl.
  set (v := coerce p s raw).
  assert (E : map (report s None) (string_codes p s v) = [] <-> string_codes p s v = []).
  { destruct (string_codes p s v); simpl; split; intros H; try reflexivity; discriminate. }
  transitivity (string_codes p s v = []).
  { destruct (map (report s None) (string_codes p s v)) eqn:M.
    - split; [intros _; apply E; reflexivity|reflexivity].
    - split; [discriminate|]. intros H. apply E in H. discriminate. }
  unfold string_codes. destruct v as [|x v'] eqn:Ev.
  - destruct (min_limit s) as [[|n]|] eqn:Em.
    + rewrite run_rules_nil_iff. split; [intros H; split; auto|intros [_ H]; exact H].
    + split; [discriminate|]. intros [H _]. specialize (H eq_refl). discriminate.
    + split; [discriminate|]. intros [H _]. specialize (H eq_refl). discriminate.
  - rewrite run_rules_nil_iff. split; [intros H; split; [discriminate|exact H]|].
    intros [_ H]. exact H.
Qed.

Lemma value_validate (p : Prefs) (s : StringSchema) (raw : jsstring) :
  value (validate p s raw) = JString (coerce p s raw).
Proof. reflexivity. Qed.

Lemma trim_check_iff (p : Prefs) (v : jsstring) :
  check_rule p RTrim v = None <-> convert p = true \/ v = trim v.
Proof.
  simpl. destruct (convert p); [split; auto|].
  destruct (jsstring_eqb v (trim v)) eqn:E.
  - apply jsstring_eqb_eq in E. split; auto.
  - split; [discriminate|]. intros [H|H]; [discriminate|].
    apply jsstring_eqb_eq in H. congruence.
Qed.

Lemma min_check_iff (p : Prefs) (n : nat) (v : jsstring) :
  check_rule p (RMin n) v = None <-> n <= List.length v.
Proof.
  simpl. destruct (Nat.leb_spec n (List.length v)); split; auto; try discriminate; lia.
Qed.

Lemma max_check_iff (p : Prefs) (n : nat) (v : jsstring) :
  check_rule p (RMax n) v = None <-> List.length v <= n.
Proof.
  simpl. destruct (Nat.leb_spec (List.length v) n); split; auto; try discriminate; lia.
Qed.

Lemma pattern_check_iff (p : Prefs) (name : option string) (r : Regex.re) (v : jsstring) :
  check_rule p (RPattern name r) v = None <-> Regex.test r v = true.
Proof. simpl. destruct (Regex.test r v); split; auto; discriminate. Qed.

Lemma email_check_iff (p : Prefs) (check : jsstring -> bool) (v : jsstring) :
  check_rule p (REmail check) v = None <-> check v = true.
Proof. simpl. destruct (check v); split; auto; discriminate. Qed.

End ValidityFacts.

Section StringFieldExtras.
Import Joi ValidationService.

Variable customValidationMessage : Messages.

(** X6.  A field made by [createStringField(min, max)] accepts a string
    exactly when the value under validation (the string trimmed when
    conversion is on, the string itself otherwise) carries no surrounding
    white space, has a length within the bounds, and is not empty unless the
    minimum is 0; what it returns is that value. *)
Theorem createStringField_accepts_iff (min max : nat) (p : Prefs) (s : jsstring) :
  let field := createStringField customValidationMessage min max in
  let v := if convert p then trim s else s in
  value (validate p field s) = JString v /\
  (is_valid (validate p field s) = true <->
   (convert p = true \/ s = trim s) /\
   (v = [] -> min = 0) /\
   min <= List.length v <= max).
Proof.
  intros field v.
  assert (Ec : coerce p field s = v).
  { unfold v, coerce. destruct (convert p); reflexivity. }
  split; [rewrite value_validate, Ec; reflexivity|].
  rewrite is_valid_iff, Ec.
  assert (Er : rules field = [RTrim; RMin min; RMax max]) by reflexivity.
  assert (Em : min_limit field = Some min) by reflexivity.
  rewrite Er, Em. split.
  - intros [Hb Hr].
    pose proof (Hr RTrim (or_introl eq_refl)) as H1.
    pose proof (Hr (RMin min) (or_intror (or_introl eq_refl))) as H2.
    pose proof (Hr (RMax max) (or_intror (or_intror (or_introl eq_refl)))) as H3.
    apply trim_check_iff in H1. apply min_check_iff in H2. apply max_check_iff in H3.
    split; [|split; [|lia]].
    + destruct H1 as [H1|H1]; [auto|]. unfold v in H1.
      destruct (convert p); [auto|right; exact H1].
    + intros E. specialize (Hb E). inversion Hb. reflexivity.
  - intros (Ht & Hb & Hlo & Hhi). split.
    + intros E. rewrite (Hb E). reflexivity.
    + intros r [<-|[<-|[<-|[]]]].
      * apply trim_check_iff. destruct Ht as [Ht|Ht]; [auto|]. right. unfold v.
        destruct (convert p); [symmetry; apply trim_idempotent|exact Ht].
      * apply min_check_iff. exact Hlo.
      * apply max_check_iff. exact Hhi.
Qed.

(** X7.  Whatever is validated, a field made by [createStringField] reports
    nothing but [string.empty], [string.trim], [string.min] and [string.max];
    in particular the subject field, whose only addition is a message for
    [string.pattern.base], never reports a pattern violation. *)
Theorem subjectField_reports_no_pattern (min max : nat) (p : Prefs) (s : jsstring) :
  Forall (fun c => In c [string_empty; string_trim; string_min; string_max])
    (codes (validate p (SendEmailSchema.subjectField customValidationMessage min max) s)).
Proof.
  rewrite codes_validate.
  set (field := SendEmailSchema.subjectField customValidationMessage min max).
  set (v := coerce p field s).
  unfold string_codes.
  assert (Er : rules field = [RTrim; RMin min; RMax max]) by reflexivity.
  assert (H : Forall (fun c => In c [string_empty; string_trim; string_min; string_max])
                (run_rules p (rules field) v [])).
  { rewrite Er. simpl.
    destruct (convert p); [|destruct (jsstring_eqb v (trim v))];
      destruct (min <=? List.length v); destruct (List.length v <=? max);
      destruct (abortEarly p); simpl;
      repeat (apply Forall_cons; [simpl; auto 6|]); apply Forall_nil. }
  destruct v as [|x v'].
  - destruct (min_limit field) as [[|n]|]; try exact H;
      (apply Forall_cons; [simpl; auto|apply Forall_nil]).
  - exact H.
Qed.

End StringFieldExtras.

Section EmailFieldExtras.
Import Joi ValidationService.

Variable customValidationMessage : Messages.
Variables EMAIL_MIN EMAIL_MAX : nat.
Variable isEmailValid : EmailOptions -> jsstring -> bool.

Let field := emailField customValidationMessage EMAIL_MIN EMAIL_MAX isEmailValid.

Lemma shape_has_no_line_terminator (v : jsstring) :
  Regex.test EMAIL_SHAPE v = true -> Forall not_line_terminator v.
Proof.
  unfold EMAIL_SHAPE. intros T. apply test_anchored in T. destruct T as (z' & Hm).
  pose proof (email_body_whole _ _ Hm) as Hend.
  destruct (matches_span _ _ email_body_units _ _ Hm) as (w & E & _ & F).
  simpl in E. rewrite Hend, app_nil_r in E. subst w. exact F.
Qed.

(** X8.  The email field accepts a string exactly when the value under
    validation (the string trimmed when conversion is on, the string itself
    otherwise) carries no surrounding white space, has a length within the
    bounds, passes the address analysis of the library, has the address shape
    of [patterns.EMAIL], names none of the three providers, and does not hold
    [temp] as a whole word. *)
Theorem emailField_accepts_iff (p : Prefs) (s : jsstring) :
  let v := if convert p then trim s else s in
  is_valid (validate p field s) = true <->
  (convert p = true \/ s = trim s) /\
  EMAIL_MIN <= List.length v <= EMAIL_MAX /\
  isEmailValid {| minDomainSegments := 2; tlds_allow := true |} v = true /\
  Regex.test EMAIL_SHAPE v = true /\
  (forall lit, In lit provider_names -> ~ contains lit v) /\
  ~ whole_word (u16 "temp") v.
Proof.
  intros v.
  assert (Ec : coerce p field s = v).
  { unfold field. rewrite emailField_coerce. reflexivity. }
  rewrite is_valid_iff, Ec. unfold field at 2. rewrite emailField_rules.
  set (opts := {| minDomainSegments := 2; tlds_allow := true |}).
  split.
  - intros [_ Hr].
    pose proof (Hr _ (or_introl eq_refl)) as H1.
    pose proof (Hr _ (or_intror (or_introl eq_refl))) as H2.
    pose proof (Hr _ (or_intror (or_intror (or_introl eq_refl)))) as H3.
    pose proof (Hr _ (or_intror (or_intror (or_intror (or_introl eq_refl))))) as H4.
    pose proof (Hr _ (or_intror (or_intror (or_intror (or_intror (or_introl eq_refl))))))
      as H5.
    pose proof (Hr _ (or_intror (or_intror (or_intror (or_intror
                        (or_intror (or_introl eq_refl))))))) as H6.
    apply trim_check_iff in H1. apply min_check_iff in H2. apply max_check_iff in H3.
    apply email_check_iff in H4. apply pattern_check_iff in H5.
    apply pattern_check_iff in H6.
    apply deny_pattern_iff in H5. destruct H5 as [_ H5].
    apply email_shape_iff in H6. destruct H6 as [H6 H7].
    repeat split; try assumption; try lia.
    destruct H1 as [H1|H1]; [auto|]. unfold v in H1.
    destruct (convert p); [auto|right; exact H1].
  - intros (Ht & [Hlo Hhi] & Ha & Hs & Hp & Hw).
    assert (T : Regex.test Patterns.EMAIL v = true)
      by (apply email_shape_iff; auto).
    split.
    + intros E. rewrite E in T. vm_compute in T. discriminate.
    + intros r [<-|[<-|[<-|[<-|[<-|[<-|[]]]]]]].
      * apply trim_check_iff. destruct Ht as [Ht|Ht]; [auto|]. right. unfold v.
        destruct (convert p); [symmetry; apply trim_idempotent|exact Ht].
      * apply min_check_iff. exact Hlo.
      * apply max_check_iff. exact Hhi.
      * apply email_check_iff. exact Ha.
      * apply pattern_check_iff. apply deny_pattern_iff. split; [|exact Hp].
        apply shape_has_no_line_terminator. exact Hs.
      * apply pattern_check_iff. exact T.
Qed.

(** X9.  Whatever [customValidationMessage] holds, a pattern violation of
    the email field is reported under the message the field itself gives:
    the [patterns.EMAIL] rule under [Please fill a valid email address.], the
    named deny rule under the text given for [string.pattern.name]. *)
Theorem emailField_pattern_messages (p : Prefs) (s : jsstring) (r : Report) :
  In r (errors (validate p field s)) ->
  (code r = string_pattern_base ->
   template r = Some "Please fill a valid email address."%string) /\
  (code r = string_pattern_name ->
   template r = Some (dq ++ "email" ++ dq
                      ++ " must not be a temporary email address")%string).
Proof.
  unfold validate, validate_string. simpl. intros Hin.
  apply in_map_iff in Hin. destruct Hin as (c & <- & _).
  unfold report. simpl. split; intros ->; reflexivity.
Qed.

End EmailFieldExtras.

(* ===================================================================== *)
(** ** More about the request schema *)
(* ===================================================================== *)

Section ObjectSchemaFacts.
Import Joi.

Lemma set_field_same (k : string) (v : JsValue) (fields : list (string * JsValue)) :
  lookup k fields = Some v -> set_field k v fields = fields.
Proof.
  induction fields as [|[k' v'] fields IH]; simpl; [discriminate|].
  destruct (String.eqb_spec k k') as [->|Hne].
  - intros H. inversion H. reflexivity.
  - intros H. rewrite (IH H). reflexivity.
Qed.

Lemma value_strict (p : Prefs) (s : StringSchema) (k : option string) (x : JsValue) :
  convert p = false -> value (validate_string p s k x) = x.
Proof.
  intros Hp. destruct x; simpl; try reflexivity.
  unfold coerce. rewrite Hp. reflexivity.
Qed.

(** With conversion off the children see the object as it came. *)
Lemma validate_keys_strict (p : Prefs) (ks : list (string * StringSchema))
  (fields : list (string * JsValue)) :
  convert p = false ->
  forall acc,
    errors (validate_keys p ks fields acc) = [] <->
    acc = [] /\
    forall k s, In (k, s) ks -> errors (validate_string p s (Some k) (item k fields)) = [].
Proof.
  intros Hp. induction ks as [|[k s] ks IH]; intros acc; simpl.
  - split; [intros H; split; [exact H|intros ? ? []]|intros [H _]; exact H].
  - fold (item k fields).
    assert (Ef : match value (validate_string p s (Some k) (item k fields)) with
                 | JUndefined => fields
                 | x => set_field k x fields
                 end = fields).
    { rewrite value_strict by assumption. unfold item.
      destruct (lookup k fields) as [x|] eqn:El; [|reflexivity].
      destruct x; try reflexivity; apply set_field_same; assumption. }
    rewrite Ef.
    destruct (errors (validate_string p s (Some k) (item k fields))) as [|e es] eqn:Ee.
    + rewrite IH. split.
      * intros [Ha H]. split; [exact Ha|]. intros k' s' [E|Hin].
        -- inversion E; subst. exact Ee.
        -- apply H. exact Hin.
      * intros [Ha H]. split; [exact Ha|]. intros k' s' Hin. apply H. right. exact Hin.
    + split.
      * intros H. exfalso. destruct (abortEarly p); [simpl in H; discriminate|].
        apply IH in H. destruct H as [H _]. destruct acc; discriminate.
      * intros [_ H]. specialize (H k s (or_introl eq_refl)). rewrite Ee in H.
        discriminate.
Qed.

Lemma validate_object_valid_iff (p : Prefs) (o : ObjectSchema)
  (fields : list (string * JsValue)) :
  is_valid (validate_object p o (JObject fields)) = true <->
  errors (validate_keys (effective p o) (keys o) fields []) = [] /\
  unprocessed (keys o) fields = [].
Proof.
  unfold validate_object, is_valid.
  destruct (errors (validate_keys (effective p o) (keys o) fields [])) as [|e es] eqn:E;
    destruct (abortEarly (effective p o));
    destruct (unprocessed (keys o) fields) as [|k us];
    simpl; try rewrite E; split; try (intros [? ?]); auto; try discriminate.
Qed.

(** What a child accepts: nothing when it is optional, or a string that
    passes the base check and the rules. *)
Lemma child_valid_iff (p : Prefs) (s : StringSchema) (k : option string) (x : JsValue) :
  errors (validate_string p s k x) = [] <->
  (x = JUndefined /\ required_flag s = false) \/
  exists raw, x = JString raw /\ is_valid (validate p s raw) = true.
Proof.
  destruct x; simpl.
  - destruct (required_flag s).
    + split; [discriminate|]. intros [[_ H]|(raw & H & _)]; discriminate.
    + split; [intros _; left; auto|reflexivity].
  - split; [discriminate|]. intros [[H _]|(raw & H & _)]; discriminate.
  - split; [discriminate|]. intros [[H _]|(raw & H & _)]; discriminate.
  - split; [discriminate|]. intros [[H _]|(raw & H & _)]; discriminate.
  - unfold is_valid, validate, validate_string. simpl.
    destruct (string_codes p s (coerce p s s0)) eqn:E; simpl.
    + split; [intros _; right; exists s0; rewrite E; auto|reflexivity].
    + split; [discriminate|]. intros [[H _]|(raw & H & Hv)]; [discriminate|].
      inversion H; subst. rewrite E in Hv. discriminate.
  - split; [discriminate|]. intros [[H _]|(raw & H & _)]; discriminate.
  - split; [discriminate|]. intros [[H _]|(raw & H & _)]; discriminate.
Qed.

Lemma required_valid (p : Prefs) (s : StringSchema) (raw : jsstring) :
  is_valid (validate p (required_ s) raw) = is_valid (validate p s raw).
Proof.
  unfold is_valid, validate, validate_string. simpl.
  replace (string_codes p (required_ s) (coerce p (required_ s) raw))
    with (string_codes p s (coerce p s raw)) by reflexivity.
  destruct (string_codes p s (coerce p s raw)); reflexivity.
Qed.

Lemma unprocessed_nil_iff (ks : list (string * StringSchema))
  (fields : list (string * JsValue)) :
  unprocessed ks fields = [] <->
  forall k, In k (map fst fields) -> mem_string k (map fst ks) = true.
Proof.
  unfold unprocessed. split.
  - intros H k Hin. destruct (mem_string k (map fst ks)) eqn:E; [reflexivity|].
    assert (Hf : In k (filter (fun k => negb (mem_string k (map fst ks))) (map fst fields))).
    { apply filter_In. rewrite E. auto. }
    rewrite H in Hf. destruct Hf.
  - intros H. induction (map fst fields) as [|k l IH]; [reflexivity|]. simpl.
    rewrite (H k (or_introl eq_refl)). simpl. apply IH.
    intros k' Hk'. apply H. right. exact Hk'.
Qed.

End ObjectSchemaFacts.

Section RequestSchemaExtras.
Import Joi ValidationService SendEmailSchema.
Local Open Scope string_scope.

Variable customValidationMessage : Messages.
Variables EMAIL_MIN EMAIL_MAX : nat.
Variable isEmailValid : EmailOptions -> jsstring -> bool.
Variables SUBJECT_MIN SUBJECT_MAX : nat.

Let schema :=
  SendEmailSchema.sendEmail customValidationMessage EMAIL_MIN EMAIL_MAX isEmailValid
    SUBJECT_MIN SUBJECT_MAX.
Let base :=
  sendEmailSchemaBase customValidationMessage EMAIL_MIN EMAIL_MAX isEmailValid
    SUBJECT_MIN SUBJECT_MAX.
Let subject_field := subjectField customValidationMessage SUBJECT_MIN SUBJECT_MAX.
Let email_field := emailField customValidationMessage EMAIL_MIN EMAIL_MAX isEmailValid.

Lemma only_declared_iff (fields : list (string * JsValue)) :
  (forall k, In k (map fst fields) -> mem_string k ["subject"; "email"] = true) <->
  (forall k, In k (map fst fields) -> k = "subject" \/ k = "email").
Proof.
  split; intros H k Hin; specialize (H k Hin).
  - unfold mem_string in H. simpl in H.
    destruct (String.eqb_spec k "subject"); [auto|].
    destruct (String.eqb_spec k "email"); [auto|discriminate].
  - unfold mem_string. simpl. destruct H as [-> | ->]; reflexivity.
Qed.

(** The children of a schema with the two declared keys, one by one. *)
Lemma two_children (p : Prefs) (s1 s2 : StringSchema) (fields : list (string * JsValue)) :
  (forall k s, In (k, s) [("subject", s1); ("email", s2)] ->
     errors (validate_string p s (Some k) (item k fields)) = []) <->
  errors (validate_string p s1 (Some "subject") (item "subject" fields)) = [] /\
  errors (validate_string p s2 (Some "email") (item "email" fields)) = [].
Proof.
  split.
  - intros H. split; apply H; simpl; auto.
  - intros [H1 H2] k s Hin. simpl in Hin.
    destruct Hin as [E|Hin]; [inversion E; subst; assumption|].
    destruct Hin as [E|Hin]; [inversion E; subst; assumption|destruct Hin].
Qed.

Lemma item_string (k : string) (fields : list (string * JsValue)) (raw : jsstring) :
  item k fields = JString raw <-> lookup k fields = Some (JString raw).
Proof.
  unfold item. destruct (lookup k fields) as [x|]; split; intros H;
    try discriminate; inversion H; reflexivity.
Qed.

Lemma schema_valid_iff (p : Prefs) (fields : list (string * JsValue)) :
  is_valid (validate_object p schema (JObject fields)) = true <->
  (forall k, In k (map fst fields) -> k = "subject" \/ k = "email") /\
  exists s e,
    lookup "subject" fields = Some (JString s) /\
    lookup "email" fields = Some (JString e) /\
    is_valid (validate (strict_with p) subject_field s) = true /\
    is_valid (validate (strict_with p) email_field e) = true.
Proof.
  rewrite validate_object_valid_iff.
  change (effective p schema) with (strict_with p).
  rewrite validate_keys_strict by reflexivity.
  change (keys schema)
    with [("subject", required_ subject_field); ("email", required_ email_field)].
  rewrite unprocessed_nil_iff. simpl map. rewrite only_declared_iff.
  rewrite two_children, !child_valid_iff. split.
  - intros [[_ [H1 H2]] Hu]. split; [exact Hu|].
    destruct H1 as [[_ H1]|(s & Es & Vs)]; [discriminate|].
    destruct H2 as [[_ H2]|(e & Ee & Ve)]; [discriminate|].
    rewrite required_valid in Vs, Ve. apply item_string in Es, Ee.
    exists s, e. auto.
  - intros [Hu (s & e & Es & Ee & Vs & Ve)]. split; [|exact Hu].
    split; [reflexivity|]. apply item_string in Es, Ee. split; right.
    + exists s. rewrite required_valid. auto.
    + exists e. rewrite required_valid. auto.
Qed.

Lemma base_valid_iff (p : Prefs) (fields : list (string * JsValue)) :
  is_valid (validate_object p base (JObject fields)) = true <->
  (forall k, In k (map fst fields) -> k = "subject" \/ k = "email") /\
  (item "subject" fields = JUndefined \/
   exists s, item "subject" fields = JString s /\
             is_valid (validate (strict_with p) subject_field s) = true) /\
  (item "email" fields = JUndefined \/
   exists e, item "email" fields = JString e /\
             is_valid (validate (strict_with p) email_field e) = true).
Proof.
  rewrite validate_object_valid_iff.
  change (effective p base) with (strict_with p).
  rewrite validate_keys_strict by reflexivity.
  change (keys base) with [("subject", subject_field); ("email", email_field)].
  rewrite unprocessed_nil_iff. simpl map. rewrite only_declared_iff.
  rewrite two_children, !child_valid_iff. split.
  - intros [[_ [H1 H2]] Hu]. split; [exact Hu|]. split.
    + destruct H1 as [[H1 _]|H1]; auto.
    + destruct H2 as [[H2 _]|H2]; auto.
  - intros [Hu [H1 H2]]. split; [|exact Hu]. split; [reflexivity|]. split.
    + destruct H1 as [H1|H1]; [left; split; [exact H1|reflexivity]|right; exact H1].
    + destruct H2 as [H2|H2]; [left; split; [exact H2|reflexivity]|right; exact H2].
Qed.


(** X11.  Because the schema is [.strict()], nothing is trimmed: an object
    whose subject or email carries white space before or after is rejected,
    whatever preferences the validation is called with. *)
Theorem sendEmail_schema_rejects_padding (p : Prefs) (fields : list (string * JsValue))
  (k : string) (s : jsstring) :
  k = "subject" \/ k = "email" ->
  lookup k fields = Some (JString s) ->
  s <> trim s ->
  is_valid (validate_object p schema (JObject fields)) = false.
Proof.
  intros Hk Hl Hs.
  destruct (is_valid (validate_object p schema (JObject fields))) eqn:V; [|reflexivity].
  exfalso. apply schema_valid_iff in V.
  destruct V as (_ & s' & e' & Es & Ee & Vs & Ve).
  assert (Hv : exists f, In RTrim (rules f) /\ is_valid (validate (strict_with p) f s) = true).
  { destruct Hk as [-> | ->].
    - rewrite Hl in Es. inversion Es; subst. exists subject_field. split; [|exact Vs].
      left. reflexivity.
    - rewrite Hl in Ee. inversion Ee; subst. exists email_field. split; [|exact Ve].
      left. reflexivity. }
  destruct Hv as (f & Hin & Hv). apply is_valid_iff in Hv. destruct Hv as [_ Hr].
  specialize (Hr RTrim Hin). apply trim_check_iff in Hr.
  destruct Hr as [Hr|Hr]; [discriminate|].
  unfold coerce in Hr. simpl in Hr. contradiction.
Qed.

(** X12.  The fork of the base schema adds the presence of the two keys and
    nothing else: an object passes the request schema exactly when it passes
    the base schema and has both a subject and an email. *)
Theorem fork_adds_presence_only (p : Prefs) (fields : list (string * JsValue)) :
  is_valid (validate_object p schema (JObject fields)) = true <->
  is_valid (validate_object p base (JObject fields)) = true /\
  item "subject" fields <> JUndefined /\
  item "email" fields <> JUndefined.
Proof.
  rewrite schema_valid_iff, base_valid_iff. split.
  - intros [Hu (s & e & Es & Ee & Vs & Ve)].
    apply item_string in Es, Ee. split; [split; [exact Hu|]|].
    + split; right; eauto.
    + rewrite Es, Ee. split; discriminate.
  - intros [[Hu [H1 H2]] [N1 N2]]. split; [exact Hu|].
    destruct H1 as [H1|(s & Es & Vs)]; [contradiction|].
    destruct H2 as [H2|(e & Ee & Ve)]; [contradiction|].
    apply item_string in Es, Ee. exists s, e. auto.
Qed.

End RequestSchemaExtras.

Lemma sendEmail_schema_rejects_padding_witness :
  Joi.is_valid
    (Joi.validate_object Joi.defaults
       (SendEmailSchema.sendEmail [] 5 100 Stub.any_address 3 100)
       (JObject [ ("subject", str "Weekly Update ");
                  ("email", str "user@example.com") ]%string)) = false.
Proof.
  apply (sendEmail_schema_rejects_padding [] 5 100 Stub.any_address 3 100 Joi.defaults
           _ "subject"%string (u16 "Weekly Update ")).
  - left. reflexivity.
  - reflexivity.
  - discriminate.
Defined.

(** The same subject passes the field on its own, where the default
    conversion trims it. *)
Example subjectField_trims_on_its_own :
  Joi.validate Joi.defaults (SendEmailSchema.subjectField [] 3 100) (u16 "Weekly Update ")
  = {| Joi.value := str "Weekly Update"; Joi.errors := [] |}.
Proof. vm_compute. reflexivity. Qed.

(* ===================================================================== *)
(** ** More about the use case, the controller and the route *)
(* ===================================================================== *)

Section UseCaseExtras.
Import SendEmailService.
Local Open Scope string_scope.

Variable prepareEmailContent : JsValue -> JsValue -> Completion JsValue.
Variable prepareEmail :
  JsValue -> JsValue -> JsValue -> JsValue -> JsValue -> Completion JsValue.

Let arguments := transport_arguments prepareEmailContent prepareEmail.

Lemma bind_to_throw {A B} (c : Completion A) (k : A -> Completion B) :
  (forall a, exists e, k a = Throw e) -> exists e, bind c k = Throw e.
Proof. intros H. destruct c as [a|e]; simpl; [apply H|eauto]. Qed.

(** X13.  When [emailData] is [undefined] or [null], the arguments of the
    transport call do not evaluate, so the transport is not called: the use
    case answers the same whatever the transport would have done. *)
Theorem sendEmail_nullish_skips_transport (emailData : JsValue)
  (transport1 transport2 : JsValue -> JsValue -> JsValue -> Completion JsValue) :
  nullish emailData ->
  (exists e, arguments emailData = Throw e) /\
  sendEmail prepareEmailContent prepareEmail transport1 emailData
  = sendEmail prepareEmailContent prepareEmail transport2 emailData.
Proof.
  intros Hn.
  assert (H : exists e, arguments emailData = Throw e).
  { unfold arguments, transport_arguments.
    destruct Hn as [-> | ->]; simpl;
      do 6 (apply bind_to_throw; intros ?); simpl; eauto. }
  split; [exact H|]. destruct H as (e & H).
  unfold sendEmail, attempt. fold arguments. rewrite H. reflexivity.
Qed.

Variable EmailService_sendEmail : JsValue -> JsValue -> JsValue -> Completion JsValue.

Let use_case := sendEmail prepareEmailContent prepareEmail EmailService_sendEmail.


(** X15.  The transport is handed fields of the payload as they are: the
    recipient is the [email] field and the subject the [subject] field, each
    [undefined] when the object lacks it.  Nothing checks them on the way. *)
Theorem transport_receives_payload_fields (fields : list (string * JsValue))
  (to subject html : JsValue) :
  arguments (JObject fields) = Normal (to, subject, html) ->
  to = item "email" fields /\ subject = item "subject" fields.
Proof.
  unfold arguments, transport_arguments. intros H.
  repeat (apply bind_normal in H; destruct H as (? & ? & H)).
  simpl in *.
  repeat match goal with
         | E : Normal _ = Normal _ |- _ => inversion E; clear E
         end.
  subst. split; reflexivity.
Qed.

(** X16.  When what the transport throws has no message to read, or an empty
    one (a thrown string or number, an [Error] without text), the envelope
    carries the fixed text [Failed to end email.]: the thrown value itself is
    not shown. *)
Theorem sendEmail_failure_without_message (emailData to subject html e m : JsValue) :
  arguments emailData = Normal (to, subject, html) ->
  EmailService_sendEmail to subject html = Throw e ->
  get e "message" = Normal m -> truthy m = false ->
  use_case emailData =
  Normal {| Envelope.status := 500;
            Envelope.message := str "Failed to end email.";
            Envelope.route := None;
            Envelope.data := None |}.
Proof.
  intros Ha Ht Hm Hf. unfold use_case, sendEmail, attempt. fold arguments.
  rewrite Ha. simpl. rewrite Ht. simpl. unfold recover. rewrite Hm. simpl.
  unfold js_or. rewrite Hf. reflexivity.
Qed.

End UseCaseExtras.

Section RouteExtras.
Import Http.

Variable prepareEmailContent : JsValue -> JsValue -> Completion JsValue.
Variable prepareEmail :
  JsValue -> JsValue -> JsValue -> JsValue -> JsValue -> Completion JsValue.
Variable EmailService_sendEmail : JsValue -> JsValue -> JsValue -> Completion JsValue.
Variable methodNotSupported : Handler.

Let use_case :=
  SendEmailService.sendEmail prepareEmailContent prepareEmail EmailService_sendEmail.
Let controller := SendEmailController.sendEmail use_case.

Lemma use_case_status (emailData : JsValue) :
  (forall a b, throws_objects (prepareEmailContent a b)) ->
  (forall a b c d f, throws_objects (prepareEmail a b c d f)) ->
  (forall a b c, throws_objects (EmailService_sendEmail a b c)) ->
  exists env,
    use_case emailData = Normal env /\
    (Envelope.status env = 201 \/ Envelope.status env = 500) /\
    Envelope.route env = None.
Proof.
  intros Hc Hr Ht. unfold use_case, SendEmailService.sendEmail, try_catch.
  destruct (SendEmailService.attempt prepareEmailContent prepareEmail
              EmailService_sendEmail emailData) as [env|e] eqn:E.
  - exists env. split; [reflexivity|].
    destruct (attempt_normal _ _ _ _ _ E) as (r & ->). split; [left|]; reflexivity.
  - pose proof (attempt_throw_object _ _ _ _ _ Hc Hr Ht E) as Hobj.
    destruct (get_of_object e "message" Hobj) as (m & Hm).
    unfold SendEmailService.recover. rewrite Hm. simpl. eexists.
    split; [reflexivity|]. split; [right|]; reflexivity.
Qed.

(** X17.  A POST on the route is always answered by the controller, after
    one call of the use case on the body: the status code is 201 or 500 and
    equals the [status] of the envelope sent, whose [route] is the original
    URL.  This holds for collaborators that throw objects when they throw. *)
Theorem post_is_answered_201_or_500 (req : Request) (res : Response) :
  method req = POST ->
  (forall a b, throws_objects (prepareEmailContent a b)) ->
  (forall a b c d f, throws_objects (prepareEmail a b c d f)) ->
  (forall a b c, throws_objects (EmailService_sendEmail a b c)) ->
  exists env,
    dispatch (SendEmailRoutes.router controller methodNotSupported) req res
    = {| trace := [UseCaseInvoked (body req)];
         outcome := Responded {| statusCode := Envelope.status env;
                                 sent := Some (EnvelopeBody env) |} |} /\
    (Envelope.status env = 201 \/ Envelope.status env = 500) /\
    Envelope.route env = Some (originalUrl req).
Proof.
  intros Hm Hc Hr Ht.
  destruct (use_case_status (body req) Hc Hr Ht) as (env & E & Hs & _).
  assert (Ec : controller req res =
               {| trace := [UseCaseInvoked (body req)];
                  outcome :=
                    Responded
                      {| statusCode := Envelope.status env;
                         sent := Some (EnvelopeBody
                                         (Envelope.set_route (originalUrl req) env)) |} |}).
  { unfold controller, SendEmailController.sendEmail. rewrite E. reflexivity. }
  exists (Envelope.set_route (originalUrl req) env). split; [|split; [exact Hs|reflexivity]].
  unfold SendEmailRoutes.router.
  rewrite (dispatch_first (Some POST, controller)).
  - exact Ec.
  - unfold applies. simpl. rewrite Hm. reflexivity.
  - cbn [snd]. rewrite Ec. discriminate.
Qed.

(** X18.  Any other method is left to [methodNotSupported]: what the route
    does and answers is what that handler does and answers, and the
    controller, hence the use case, is not run. *)
Theorem other_methods_skip_controller (any_controller : Handler)
  (req : Request) (res : Response) :
  method req <> POST ->
  trace (dispatch (SendEmailRoutes.router any_controller methodNotSupported) req res)
  = trace (methodNotSupported req res) /\
  outcome (dispatch (SendEmailRoutes.router any_controller methodNotSupported) req res)
  = outcome (methodNotSupported req res).
Proof.
  intros Hm. unfold SendEmailRoutes.router. cbn [dispatch].
  assert (Ea : applies (Some POST, any_controller) req = false).
  { unfold applies. simpl. destruct (method req); try reflexivity. contradiction. }
  rewrite Ea. unfold applies at 1. cbn [fst snd].
  destruct (outcome (methodNotSupported req res)) eqn:E; simpl; rewrite ?E;
    rewrite ?app_nil_r; auto.
Qed.

End RouteExtras.

(* ===================================================================== *)
(** ** The configuration helpers *)
(* ===================================================================== *)

Section ConfigurationFacts.
Import Configuration.

Lemma dropWhile_app_all (p : N -> bool) (a b : jsstring) :
  all_units p a -> dropWhile p (a ++ b) = dropWhile p b.
Proof.
  induction 1 as [|x a Hx _ IH]; simpl; [reflexivity|]. rewrite Hx. exact IH.
Qed.

Lemma takeWhile_app (p : N -> bool) (ds rest : jsstring) :
  all_units p ds ->
  match rest with c :: _ => p c = false | [] => True end ->
  takeWhile p (ds ++ rest) = ds.
Proof.
  intros Hd Hr. induction Hd as [|x ds Hx _ IH]; simpl.
  - destruct rest as [|c rest]; [reflexivity|]. simpl. rewrite Hr. reflexivity.
  - rewrite Hx, IH. reflexivity.
Qed.

Lemma digit_not_space (c : N) : is_digit c = true -> is_space c = false.
Proof. unfold is_digit. intros H. class_cases. Qed.

Lemma digit_not_sign (c : N) :
  is_digit c = true -> one (ch "-") c = false /\ one (ch "+") c = false.
Proof. unfold is_digit. intros H. split; class_cases. Qed.

Lemma getEnvVar_unset_iff (envVar defaultValue : JsValue) :
  is_unset (getEnvVar envVar defaultValue) = is_unset envVar && is_unset defaultValue.
Proof.
  unfold getEnvVar. destruct (is_unset envVar) eqn:E; simpl; [reflexivity|exact E].
Qed.

(** X19.  [getEnvVar] yields an unset value ([undefined], [null] or the empty
    string) exactly when both the variable and the default are unset; a
    variable that is set comes back unchanged. *)
Theorem getEnvVar_unset_only_with_unset_default (envVar defaultValue : JsValue) :
  (is_unset (getEnvVar envVar defaultValue) = true <->
   is_unset envVar = true /\ is_unset defaultValue = true) /\
  (is_unset envVar = false -> getEnvVar envVar defaultValue = envVar).
Proof.
  split.
  - rewrite getEnvVar_unset_iff. apply andb_true_iff.
  - intros H. unfold getEnvVar. rewrite H. reflexivity.
Qed.

Variable number_to_string : Z -> jsstring.

Lemma parseInt10_numeral (ws sgn ds rest : jsstring) :
  all_units is_space ws ->
  sgn = [] \/ sgn = [ch "+"] \/ sgn = [ch "-"] ->
  all_units is_digit ds -> ds <> [] ->
  match rest with c :: _ => is_digit c = false | [] => True end ->
  parseInt10 (ws ++ sgn ++ ds ++ rest)
  = Some ((match sgn with [45%N] => -1 | _ => 1 end) * digits_value ds)%Z.
Proof.
  intros Hws Hsgn Hds Hne Hrest. unfold parseInt10, trimStart.
  rewrite dropWhile_app_all by assumption.
  destruct ds as [|d0 ds']; [contradiction|].
  inversion Hds as [|? ? Hd0 Hds']; subst.
  destruct (digit_not_sign d0 Hd0) as [Hm Hp].
  pose proof (takeWhile_app is_digit (d0 :: ds') rest Hds Hrest) as Ht.
  destruct Hsgn as [-> | [-> | ->]].
  - cbn [app]. rewrite dropWhile_fixed by (apply digit_not_space; assumption).
    rewrite Hm, Hp. rewrite <- app_comm_cons in Ht. rewrite Ht. reflexivity.
  - cbn [app]. rewrite dropWhile_fixed by reflexivity.
    replace (one (ch "-") (ch "+")) with false by reflexivity.
    replace (one (ch "+") (ch "+")) with true by reflexivity.
    rewrite <- app_comm_cons in Ht. rewrite Ht. reflexivity.
  - cbn [app]. rewrite dropWhile_fixed by reflexivity.
    replace (one (ch "-") (ch "-")) with true by reflexivity.
    rewrite <- app_comm_cons in Ht. rewrite Ht. reflexivity.
Qed.

(** X20.  [getInt] reads the integer a string starts with and ignores what
    follows it: after any leading white space and at most one sign, the
    longest run of decimal digits is the result (negated after a minus sign),
    not the default.  The value is exact up to 2^53. *)
Theorem getInt_reads_leading_integer (ws sgn ds rest : jsstring) (defaultValue : JsValue) :
  all_units is_space ws ->
  sgn = [] \/ sgn = [ch "+"] \/ sgn = [ch "-"] ->
  all_units is_digit ds -> ds <> [] ->
  match rest with c :: _ => is_digit c = false | [] => True end ->
  (digits_value ds <= 2 ^ 53)%Z ->
  getInt number_to_string (JString (ws ++ sgn ++ ds ++ rest)) defaultValue
  = JNumber ((match sgn with [45%N] => -1 | _ => 1 end) * digits_value ds)%Z.
Proof.
  intros Hws Hsgn Hds Hne Hrest _. unfold getInt. simpl to_string.
  rewrite parseInt10_numeral by assumption. reflexivity.
Qed.

Lemma parseInt10_nan (s : jsstring) :
  numeric_start (trimStart s) = false -> parseInt10 s = None.
Proof.
  unfold parseInt10, numeric_start, is_sign. intros H.
  destruct (trimStart s) as [|c rest]; [reflexivity|].
  destruct (one (ch "-") c) eqn:Em.
  - rewrite orb_true_r in H. destruct rest as [|d rest']; [reflexivity|].
    simpl. rewrite H. reflexivity.
  - destruct (one (ch "+") c) eqn:Ep; simpl in H.
    + destruct rest as [|d rest']; [reflexivity|]. simpl. rewrite H. reflexivity.
    + simpl. rewrite H. reflexivity.
Qed.

Lemma parseInt10_number (s : jsstring) :
  numeric_start (trimStart s) = true -> exists z, parseInt10 s = Some z.
Proof.
  unfold parseInt10, numeric_start, is_sign. intros H.
  destruct (trimStart s) as [|c rest]; [discriminate|].
  destruct (one (ch "-") c) eqn:Em.
  - rewrite orb_true_r in H. destruct rest as [|d rest']; [discriminate|].
    simpl. rewrite H. eauto.
  - destruct (one (ch "+") c) eqn:Ep; simpl in H.
    + destruct rest as [|d rest']; [discriminate|]. simpl. rewrite H. eauto.
    + simpl. rewrite H. eauto.
Qed.

(** X21.  [getInt] falls back to the default exactly when the text does not
    start, after leading white space, with a digit or with a sign and a digit:
    so for the empty string, for words, and for [undefined] and [null]; in
    every other case the result is a number, never NaN. *)
Theorem getInt_default_iff_no_integer (s : jsstring) (defaultValue : JsValue) :
  (numeric_start (trimStart s) = false ->
   getInt number_to_string (JString s) defaultValue = defaultValue) /\
  (numeric_start (trimStart s) = true ->
   exists z, getInt number_to_string (JString s) defaultValue = JNumber z) /\
  getInt number_to_string JUndefined defaultValue = defaultValue /\
  getInt number_to_string JNull defaultValue = defaultValue.
Proof.
  unfold getInt. simpl to_string. repeat split.
  - intros H. rewrite (parseInt10_nan s H). reflexivity.
  - intros H. destruct (parseInt10_number s H) as (z & ->). eauto.
Qed.

End ConfigurationFacts.

Section CorsLists.
Import Configuration.






End CorsLists.


(* ===================================================================== *)
(** ** Instances *)
(* ===================================================================== *)

Lemma EMAIL_unquoted_has_one_at_witness :
  exists local domain,
    u16 "user.name@sub.domain.com" = local ++ ch "@" :: domain /\
    Forall (fun c => is_space c = false /\ c <> ch "@") (local ++ domain).
Proof.
  apply (EMAIL_unquoted_has_one_at (u16 "user.name@sub.domain.com")).
  - vm_compute. reflexivity.
  - simpl. discriminate.
Defined.

Lemma EMAIL_top_level_domain_witness :
  (exists u, u16 "a@b.co" = u ++ [ch "]"]) \/
  (exists u t, u16 "a@b.co" = u ++ t /\ 2 <= List.length t /\ all_units alpha t).
Proof.
  apply (EMAIL_top_level_domain (u16 "a@b.co")). vm_compute. reflexivity.
Defined.

(** One letter after the last full stop is not enough. *)
Example EMAIL_refuses_short_top_level_domain :
  Regex.test Patterns.EMAIL (u16 "a@b.c") = false /\
  Regex.test Patterns.EMAIL (u16 "a@b.c0m") = false.
Proof. split; vm_compute; reflexivity. Qed.

Lemma emailField_pattern_messages_witness :
  let field :=
    ValidationService.emailField
      [("string.pattern.base", "overridden")]%string 5 100 Stub.any_address in
  let r := {| Joi.code := Joi.string_pattern_base;
              Joi.key := None;
              Joi.template := Some "Please fill a valid email address."%string |} in
  Joi.errors (Joi.validate Joi.defaults field (u16 "not-an-email")) = [r] /\
  (Joi.code r = Joi.string_pattern_base ->
   Joi.template r = Some "Please fill a valid email address."%string).
Proof.
  cbv zeta. split; [vm_compute; reflexivity|].
  apply (emailField_pattern_messages
           [("string.pattern.base", "overridden")]%string 5 100 Stub.any_address
           Joi.defaults (u16 "not-an-email")).
  vm_compute. left. reflexivity.
Defined.

Lemma sendEmail_nullish_skips_transport_witness :
  SendEmailService.sendEmail Stub.prepareEmailContent Stub.prepareEmail
    Stub.transport_ok JNull
  = SendEmailService.sendEmail Stub.prepareEmailContent Stub.prepareEmail
      Stub.transport_refused JNull.
Proof.
  exact (proj2 (sendEmail_nullish_skips_transport Stub.prepareEmailContent
                  Stub.prepareEmail JNull Stub.transport_ok Stub.transport_refused
                  (or_intror eq_refl))).
Defined.


Lemma transport_receives_payload_fields_witness :
  let fields := [("subject", str "Weekly Update")]%string in
  JUndefined = item "email" fields /\ str "Weekly Update" = item "subject" fields.
Proof.
  cbv zeta.
  apply (transport_receives_payload_fields Stub.prepareEmailContent Stub.prepareEmail
           [("subject", str "Weekly Update")]%string
           JUndefined (str "Weekly Update") (str "<html></html>")).
  reflexivity.
Defined.

Lemma sendEmail_failure_without_message_witness :
  SendEmailService.sendEmail Stub.prepareEmailContent Stub.prepareEmail
    (fun _ _ _ => Throw (str "connection refused")) Stub.weekly_update
  = Normal {| Envelope.status := 500;
              Envelope.message := str "Failed to end email.";
              Envelope.route := None;
              Envelope.data := None |}.
Proof.
  apply (sendEmail_failure_without_message Stub.prepareEmailContent Stub.prepareEmail
           (fun _ _ _ => Throw (str "connection refused")) Stub.weekly_update
           (str "user@example.com") (str "Weekly Update") (str "<html></html>")
           (str "connection refused") JUndefined).
  - reflexivity.
  - reflexivity.
  - reflexivity.
  - reflexivity.
Defined.

Lemma post_is_answered_201_or_500_witness :
  let req := {| Http.method := Http.POST;
                Http.originalUrl := u16 "/send-email";
                Http.body := JObject [] |} in
  exists env,
    Http.dispatch
      (SendEmailRoutes.router
         (SendEmailController.sendEmail
            (SendEmailService.sendEmail Stub.prepareEmailContent Stub.prepareEmail
               Stub.transport_refused))
         Stub.not_supported) req Http.fresh
    = {| Http.trace := [Http.UseCaseInvoked (JObject [])];
         Http.outcome :=
           Http.Responded {| Http.statusCode := Envelope.status env;
                             Http.sent := Some (Http.EnvelopeBody env) |} |} /\
    (Envelope.status env = 201 \/ Envelope.status env = 500) /\
    Envelope.route env = Some (u16 "/send-email").
Proof.
  cbv zeta.
  apply (post_is_answered_201_or_500 Stub.prepareEmailContent Stub.prepareEmail
           Stub.transport_refused Stub.not_supported
           {| Http.method := Http.POST;
              Http.originalUrl := u16 "/send-email";
              Http.body := JObject [] |} Http.fresh).
  - reflexivity.
  - intros a b e H. discriminate.
  - intros a b c d f e H. discriminate.
  - intros a b c e H [E|E]; subst e; discriminate.
Defined.

Lemma other_methods_skip_controller_witness :
  let req := {| Http.method := Http.GET;
                Http.originalUrl := u16 "/send-email";
                Http.body := JUndefined |} in
  let controller :=
    SendEmailController.sendEmail
      (SendEmailService.sendEmail Stub.prepareEmailContent Stub.prepareEmail
         Stub.transport_ok) in
  Http.trace (Http.dispatch (SendEmailRoutes.router controller Stub.not_supported)
                req Http.fresh) = [] /\
  Http.outcome (Http.dispatch (SendEmailRoutes.router controller Stub.not_supported)
                  req Http.fresh)
  = Http.outcome (Stub.not_supported req Http.fresh).
Proof.
  cbv zeta.
  apply (other_methods_skip_controller Stub.not_supported
           (SendEmailController.sendEmail
              (SendEmailService.sendEmail Stub.prepareEmailContent Stub.prepareEmail
                 Stub.transport_ok))
           {| Http.method := Http.GET;
              Http.originalUrl := u16 "/send-email";
              Http.body := JUndefined |} Http.fresh).
  discriminate.
Defined.

Lemma getInt_reads_leading_integer_witness :
  Configuration.getInt (fun _ => []) (str "  -8080px") (JNumber 3000) = JNumber (-8080).
Proof.
  apply (getInt_reads_leading_integer (fun _ => []) (u16 "  ") (u16 "-") (u16 "8080")
           (u16 "px") (JNumber 3000)).
  - repeat constructor.
  - right. right. reflexivity.
  - repeat constructor.
  - discriminate.
  - reflexivity.
  - vm_compute. discriminate.
Defined.

(** Text that [parseInt] cannot start on gives the default. *)
Example getInt_defaults :
  map (fun s => Configuration.getInt (fun _ => []) (str s) (JNumber 30))
      [ ""; "abc"; "- 5"; "+"; ".5"; "0x10"; " 12.5e3 " ]%string
  = [JNumber 30; JNumber 30; JNumber 30; JNumber 30; JNumber 30; JNumber 0; JNumber 12].
Proof. vm_compute. reflexivity. Qed.
